(** * yeelight: device session engine and discovery scanner

    A shallow embedding of the TypeScript sources

    - [Yeelight] (the device session: connection state, command
      correlation, line framing), and
    - [Discovery] (cache seeding and the merge of multicast responses),

    together with the properties of the design document that can be
    stated over them.

    Conventions.  A JavaScript string is the list of its UTF-16 code
    units; a [Buffer] is the list of its bytes; a JavaScript [number]
    that the program only ever uses at integral values is a [Z], with
    the places where the IEEE double or the 32-bit conversions are
    visible written out.  Every handler of the class is a function from
    the object's state to the new state and the list of effects it
    performed, in program order. *)

From Stdlib Require Import ZArith List String Ascii Bool Lia DecimalString.
Import ListNotations.
Open Scope Z_scope.
Set Warnings "-register-all".

(** ** JavaScript values used by the program *)

Module JS.

(** A string is a sequence of UTF-16 code units. *)
Definition jsstring := list Z.

(** An ASCII literal of the source text. *)
Definition js (s : string) : jsstring :=
  map (fun a => Z.of_N (N_of_ascii a)) (list_ascii_of_string s).

(** The same for a literal that holds double quotes, written ['] in it. *)
Definition jsq (s : string) : jsstring :=
  map (fun c => if c =? 39 then 34 else c) (js s).

Definition CR : Z := 13.
Definition LF : Z := 10.

Fixpoint streqb (a b : jsstring) : bool :=
  match a, b with
  | [], [] => true
  | x :: a', y :: b' => (x =? y) && streqb a' b'
  | _, _ => false
  end.

(** [s.startsWith(needle)] *)
Fixpoint startsWith (needle s : jsstring) : bool :=
  match needle, s with
  | [], _ => true
  | _ :: _, [] => false
  | x :: needle', y :: s' => (x =? y) && startsWith needle' s'
  end.

(** [s.indexOf(needle)]: the least position at which [needle] occurs,
    [-1] when there is none. *)
Fixpoint indexOf (needle s : jsstring) : Z :=
  if startsWith needle s then 0
  else match s with
       | [] => -1
       | _ :: s' => let r := indexOf needle s' in
                    if r <? 0 then -1 else r + 1
       end.

(** [s.includes(needle)] *)
Definition includes (needle s : jsstring) : bool :=
  negb (indexOf needle s <? 0).

(** [s.slice(0, e)] and [s.slice(b)] for the non-negative indices the
    program passes. *)
Definition slice_to (s : jsstring) (e : Z) : jsstring := firstn (Z.to_nat e) s.
Definition slice_from (s : jsstring) (b : Z) : jsstring := skipn (Z.to_nat b) s.

(** *** Numbers *)

(** [++n] on a [number] holding a non-negative integer: the sum is
    exact below 2^53; at 2^53 the successor is not representable and
    rounds (ties to even) back to 2^53. *)
Definition MAX_EXACT : Z := 2 ^ 53.

Definition incr (n : Z) : Z := if n <? MAX_EXACT then n + 1 else n.

(** [ToInt32]: the operands of [<<] and [|] are reduced modulo 2^32
    into the signed 32-bit range. *)
Definition ToInt32 (x : Z) : Z := (x + 2 ^ 31) mod 2 ^ 32 - 2 ^ 31.

(** [a << n] for a constant shift count [0 <= n < 32]. *)
Definition shl (a n : Z) : Z := ToInt32 (Z.shiftl (ToInt32 a) n).

(** [a | b] *)
Definition bor (a b : Z) : Z := Z.lor (ToInt32 a) (ToInt32 b).

(** *** Values produced by [JSON.parse] *)

Inductive json :=
| JNull
| JBool (b : bool)
| JNum (z : Z)                 (* a number with an integral value *)
| JFrac (literal : jsstring)   (* any other number, kept by its literal *)
| JStr (s : jsstring)
| JArr (items : list json)
| JObj (props : list (jsstring * json)).

(** Own property lookup, first binding of the key. *)
Fixpoint assoc {A} (k : jsstring) (m : list (jsstring * A)) : option A :=
  match m with
  | [] => None
  | (k', v) :: m' => if streqb k k' then Some v else assoc k m'
  end.

(** A thrown exception that the program catches. *)
Inductive exn := SyntaxError | TypeError.

(** [key in v], for the keys the program asks about ("method", "id",
    "error"; none of them is a property of arrays or of
    [Object.prototype]).  On a primitive the operator throws. *)
Definition has_key (k : jsstring) (v : json) : exn + bool :=
  match v with
  | JObj m => inr (match assoc k m with Some _ => true | None => false end)
  | JArr _ => inr false
  | _ => inl TypeError
  end.

(** [v.key] or [v[key]] read: [None] is [undefined].  Reading a
    property of [null] throws; of the other primitives and of arrays
    (for the keys "id", "error", "message", "code") it is [undefined]. *)
Definition get (k : jsstring) (v : json) : exn + option json :=
  match v with
  | JObj m => inr (assoc k m)
  | JNull => inl TypeError
  | _ => inr None
  end.

(** *** [Map<number, V>]: insertion-ordered, one entry per key *)

Section NumberMap.
Context {V : Type}.

Definition Map := list (Z * V).

Fixpoint Map_get (k : Z) (m : Map) : option V :=
  match m with
  | [] => None
  | (k', v) :: m' => if k =? k' then Some v else Map_get k m'
  end.

Definition Map_has (k : Z) (m : Map) : bool :=
  match Map_get k m with Some _ => true | None => false end.

(** [m.set(k, v)]: an existing key keeps its place. *)
Fixpoint Map_set (k : Z) (v : V) (m : Map) : Map :=
  match m with
  | [] => [(k, v)]
  | (k', v') :: m' =>
      if k =? k' then (k, v) :: m' else (k', v') :: Map_set k v m'
  end.

(** [m.delete(k)]: no entry for [k] is left. *)
Fixpoint Map_delete (k : Z) (m : Map) : Map :=
  match m with
  | [] => []
  | (k', v') :: m' =>
      if k =? k' then Map_delete k m' else (k', v') :: Map_delete k m'
  end.

Definition Map_keys (m : Map) : list Z := map fst m.
End NumberMap.
Arguments Map : clear implicits.

(** *** [Buffer.prototype.toString()]: UTF-8 decoding

    Ill-formed input is replaced by U+FFFD, one per maximal subpart;
    a code point above U+FFFF becomes a surrogate pair. *)

Inductive utf8_state :=
| Start
| Cont (needed : nat) (cp lo hi : Z).

Definition REPLACEMENT : Z := 0xFFFD.

Definition utf16 (cp : Z) : jsstring :=
  if cp <? 0x10000 then [cp]
  else [0xD800 + (cp - 0x10000) / 0x400; 0xDC00 + (cp - 0x10000) mod 0x400].

Definition utf8_lead (b : Z) : jsstring * utf8_state :=
  if b <=? 0x7F then ([b], Start)
  else if (0xC2 <=? b) && (b <=? 0xDF) then
    ([], Cont 0 (Z.land b 0x1F) 0x80 0xBF)
  else if (0xE0 <=? b) && (b <=? 0xEF) then
    ([], Cont 1 (Z.land b 0xF)
               (if b =? 0xE0 then 0xA0 else 0x80)
               (if b =? 0xED then 0x9F else 0xBF))
  else if (0xF0 <=? b) && (b <=? 0xF4) then
    ([], Cont 2 (Z.land b 0x7)
               (if b =? 0xF0 then 0x90 else 0x80)
               (if b =? 0xF4 then 0x8F else 0xBF))
  else ([REPLACEMENT], Start).

(** [Cont n ..] still expects [S n] continuation bytes. *)
Definition utf8_step (st : utf8_state) (b : Z) : jsstring * utf8_state :=
  match st with
  | Start => utf8_lead b
  | Cont n cp lo hi =>
      if (lo <=? b) && (b <=? hi) then
        let cp' := cp * 64 + Z.land b 0x3F in
        match n with
        | O => (utf16 cp', Start)
        | S n' => ([], Cont n' cp' 0x80 0xBF)
        end
      else
        let '(out, st') := utf8_lead b in (REPLACEMENT :: out, st')
  end.

Fixpoint utf8_decode (st : utf8_state) (bytes : list Z) : jsstring :=
  match bytes with
  | [] => match st with Start => [] | Cont _ _ _ _ => [REPLACEMENT] end
  | b :: rest => let '(out, st') := utf8_step st b in
                 out ++ utf8_decode st' rest
  end.

(** The decoder state after [bytes]. *)
Fixpoint utf8_after (st : utf8_state) (bytes : list Z) : utf8_state :=
  match bytes with
  | [] => st
  | b :: rest => utf8_after (snd (utf8_step st b)) rest
  end.

Definition Buffer := list Z.

Definition toString (data : Buffer) : jsstring := utf8_decode Start data.

End JS.

(** ** The device session: [class Yeelight] *)

Module Session.
Import JS.

(** [interface CommandOptions]; [cmd_id] is its field [id]. *)
Record CommandOptions := {
  cmd_id : Z;
  method : jsstring;
  params : list json
}.

(** [new YeelightError(message, code, command)]; [None] is [undefined]. *)
Record YeelightError := {
  message : option json;
  code : option json;
  command : option CommandOptions
}.

Definition error_of (msg : string) (c : option CommandOptions) : YeelightError :=
  {| message := Some (JStr (js msg)); code := None; command := c |}.

(** The errors of the design document, as the program builds them. *)
Definition NotConnected : YeelightError :=
  error_of "Not connected to device" None.
Definition CommandTimeout (c : CommandOptions) : YeelightError :=
  error_of "Command timeout" (Some c).
Definition ConnectionClosed : YeelightError :=
  error_of "Connection closed" None.
Definition ConnectionTimeout : YeelightError :=
  error_of "Connection timeout" None.
Definition BrightnessValidationError : YeelightError :=
  error_of "Brightness must be between 1 and 100" None.
Definition SendFailure (reason : jsstring) (c : CommandOptions) : YeelightError :=
  {| message := Some (JStr (js "Failed to send command: " ++ reason));
     code := None; command := Some c |}.

Inductive event :=
| connected_event
| disconnected_event
| error_event
| notification_event (payload : json).

(** What a handler does to the outside, in program order.  The promise
    returned by [sendCommand] is named by the id of its command. *)
Inductive effect :=
| Emit (e : event)                          (* this.emit(...) *)
| Resolve (id : Z) (value : json)           (* resolve(value) *)
| Reject (id : Z) (reason : YeelightError)  (* reject(reason) *)
| Write (c : CommandOptions)  (* socket.write(JSON.stringify(c) + "\r\n", cb) *)
| OpenSocket                                (* socket.connect(port, ip) *)
| DestroySocket                             (* socket.destroy() *)
| LogError (e : exn).                       (* options.logger.error(...) *)

Inductive Socket := TcpSocket.

(** The fields of the object, and [timers]: the command timeouts that
    [sendCommand] armed and that have neither fired nor been cleared.
    Each is closed over by the queue entry of its command and by its
    own callback; it is named by the id of that command and carries
    the command the callback reports. *)
Record Yeelight := {
  socket : option Socket;
  messageId : Z;
  connected : bool;
  commandQueue : Map CommandOptions;
  buffer : jsstring;
  timers : Map CommandOptions
}.

(** The object right after [new Yeelight(deviceInfo, options)]. *)
Definition new_Yeelight : Yeelight :=
  {| socket := None; messageId := 0; connected := false;
     commandQueue := []; buffer := []; timers := [] |}.

Definition with_socket (s : option Socket) (y : Yeelight) : Yeelight :=
  {| socket := s; messageId := messageId y; connected := connected y;
     commandQueue := commandQueue y; buffer := buffer y; timers := timers y |}.
Definition with_messageId (n : Z) (y : Yeelight) : Yeelight :=
  {| socket := socket y; messageId := n; connected := connected y;
     commandQueue := commandQueue y; buffer := buffer y; timers := timers y |}.
Definition with_connected (b : bool) (y : Yeelight) : Yeelight :=
  {| socket := socket y; messageId := messageId y; connected := b;
     commandQueue := commandQueue y; buffer := buffer y; timers := timers y |}.
Definition with_commandQueue (q : Map CommandOptions) (y : Yeelight) : Yeelight :=
  {| socket := socket y; messageId := messageId y; connected := connected y;
     commandQueue := q; buffer := buffer y; timers := timers y |}.
Definition with_buffer (b : jsstring) (y : Yeelight) : Yeelight :=
  {| socket := socket y; messageId := messageId y; connected := connected y;
     commandQueue := commandQueue y; buffer := b; timers := timers y |}.
Definition with_timers (t : Map CommandOptions) (y : Yeelight) : Yeelight :=
  {| socket := socket y; messageId := messageId y; connected := connected y;
     commandQueue := commandQueue y; buffer := buffer y; timers := t |}.

(** What an [async] method hands back: an exception thrown before any
    promise of a command exists, or the pending promise of command [id]. *)
Inductive outcome :=
| Thrown (e : YeelightError)
| Pending (id : Z).

Definition result : Type := outcome * Yeelight * list effect.

(** *** connect / disconnect *)

(** [connect()] up to the call of [socket.connect]; the promise it
    returns and the connect timeout change no field of the object. *)
Definition connect (y : Yeelight) : Yeelight * list effect :=
  if connected y then (y, [])
  else (with_socket (Some TcpSocket) y, [OpenSocket]).

(** The socket's "connect" event. *)
Definition onConnect (y : Yeelight) : Yeelight * list effect :=
  (with_connected true y, [Emit connected_event]).

Definition disconnect (y : Yeelight) : Yeelight * list effect :=
  let '(y1, e) := match socket y with
                  | Some _ => (with_socket None y, [DestroySocket])
                  | None => (y, [])
                  end in
  (with_connected false y1, e).

(** *** sendCommand *)

(** The [resolve] and [reject] stored in the queue entry of command
    [id]: clear its timeout, then settle its promise. *)
Definition entry_resolve (id : Z) (value : json) (y : Yeelight)
  : Yeelight * list effect :=
  (with_timers (Map_delete id (timers y)) y, [Resolve id value]).

Definition entry_reject (id : Z) (reason : YeelightError) (y : Yeelight)
  : Yeelight * list effect :=
  (with_timers (Map_delete id (timers y)) y, [Reject id reason]).

Definition sendCommand (m : jsstring) (ps : list json) (y : Yeelight) : result :=
  if negb (connected y) || match socket y with None => true | Some _ => false end
  then (Thrown NotConnected, y, [])
  else
    let id := incr (messageId y) in
    let c := {| cmd_id := id; method := m; params := ps |} in
    let y1 := with_messageId id y in
    let y2 := with_timers (Map_set id c (timers y1)) y1 in
    let y3 := with_commandQueue (Map_set id c (commandQueue y2)) y2 in
    (Pending id, y3, [Write c]).

(** The callback of the timeout armed for command [c]; it runs only
    while that timeout is armed. *)
Definition onCommandTimeout (id : Z) (y : Yeelight) : Yeelight * list effect :=
  match Map_get id (timers y) with
  | None => (y, [])
  | Some c =>
      let y1 := with_timers (Map_delete id (timers y)) y in
      let y2 := with_commandQueue (Map_delete id (commandQueue y1)) y1 in
      (y2, [Reject id (CommandTimeout c)])
  end.

(** The callback of [socket.write] for command [c], called with an error. *)
Definition onWriteError (c : CommandOptions) (reason : jsstring) (y : Yeelight)
  : Yeelight * list effect :=
  let id := cmd_id c in
  let y1 := with_commandQueue (Map_delete id (commandQueue y)) y in
  let y2 := with_timers (Map_delete id (timers y1)) y1 in
  (y2, [Reject id (SendFailure reason c)]).

(** *** The capability methods *)

Definition default_duration : Z := 500.

Definition setBrightness (brightness duration : Z) (y : Yeelight) : result :=
  if (brightness <? 1) || (brightness >? 100)
  then (Thrown BrightnessValidationError, y, [])
  else sendCommand (js "set_bright")
         [JNum brightness; JStr (js "smooth"); JNum duration] y.

Definition pack_rgb (red green blue : Z) : Z :=
  bor (bor (shl red 16) (shl green 8)) blue.

Definition setRGB (red green blue duration : Z) (y : Yeelight) : result :=
  let rgb := pack_rgb red green blue in
  sendCommand (js "set_rgb") [JNum rgb; JStr (js "smooth"); JNum duration] y.

(** *** Inbound data: the line framer *)

Section Inbound.
(** [JSON.parse]: [None] when it throws [SyntaxError]. *)
Variable JSON_parse : jsstring -> option json.

(** The key under which [commandQueue.get(response.id)] looks:
    only a number can equal a key of the table. *)
Definition number_key (v : option json) : option Z :=
  match v with
  | Some (JNum z) => Some z
  | _ => None
  end.

(** The part of the [try] block after a command was found for
    [response] and removed from the table. *)
Definition settle (c : CommandOptions) (response : json) (y : Yeelight)
  : Yeelight * list effect :=
  match has_key (js "error") response with
  | inl e => (y, [LogError e])
  | inr true =>
      match get (js "error") response with
      | inl e => (y, [LogError e])
      | inr None => (y, [LogError TypeError])
      | inr (Some err) =>
          match get (js "message") err, get (js "code") err with
          | inr msg, inr cd =>
              entry_reject (cmd_id c)
                {| message := msg; code := cd; command := Some c |} y
          | inl e, _ | _, inl e => (y, [LogError e])
          end
      end
  | inr false => entry_resolve (cmd_id c) response y
  end.

(** The body of the loop for one complete line: [try { ... } catch]. *)
Definition handleLine (line : jsstring) (y : Yeelight) : Yeelight * list effect :=
  match JSON_parse line with
  | None => (y, [LogError SyntaxError])
  | Some response =>
      match has_key (js "method") response with
      | inl e => (y, [LogError e])
      | inr true => (y, [Emit (notification_event response)])
      | inr false =>
          match has_key (js "id") response with
          | inl e => (y, [LogError e])
          | inr false => (y, [])
          | inr true =>
              match get (js "id") response with
              | inl e => (y, [LogError e])
              | inr v =>
                  match number_key v with
                  | None => (y, [])
                  | Some k =>
                      match Map_get k (commandQueue y) with
                      | None => (y, [])
                      | Some c =>
                          settle c response
                            (with_commandQueue
                               (Map_delete k (commandQueue y)) y)
                      end
                  end
              end
          end
      end
  end.

(** [while ((newlineIndex = this.buffer.indexOf("\n")) !== -1) { ... }];
    [None] when [fuel] iterations do not reach the exit. *)
Fixpoint drain (fuel : nat) (y : Yeelight) : option (Yeelight * list effect) :=
  let newlineIndex := indexOf [LF] (buffer y) in
  if newlineIndex =? -1 then Some (y, [])
  else
    match fuel with
    | O => None
    | S fuel' =>
        let line := slice_to (buffer y) newlineIndex in
        let y1 := with_buffer (slice_from (buffer y) (newlineIndex + 1)) y in
        let '(y2, e1) := handleLine line y1 in
        match drain fuel' y2 with
        | Some (y3, e2) => Some (y3, e1 ++ e2)
        | None => None
        end
    end.

(** [handleData] once the chunk is a string: [this.buffer += text],
    then the loop.  Every iteration removes a line terminator from
    the buffer, so its length bounds the number of iterations
    ([drain_enough] below). *)
Definition handleText (text : jsstring) (y : Yeelight) : Yeelight * list effect :=
  let y1 := with_buffer (buffer y ++ text) y in
  match drain (List.length (buffer y1)) y1 with
  | Some r => r
  | None => (y1, [])
  end.

Definition handleData (data : Buffer) (y : Yeelight) : Yeelight * list effect :=
  handleText (toString data) y.

(** The "data" events of successive deliveries, in order. *)
Fixpoint deliver (chunks : list Buffer) (y : Yeelight) : Yeelight * list effect :=
  match chunks with
  | [] => (y, [])
  | data :: rest =>
      let '(y1, e1) := handleData data y in
      let '(y2, e2) := deliver rest y1 in
      (y2, e1 ++ e2)
  end.

(** *** Transport error and close *)

(** [handleError], with a listener registered for "error" (without
    one, [emit] itself throws). *)
Definition handleError (y : Yeelight) : Yeelight * list effect :=
  (with_connected false y, [Emit error_event]).

(** [this.commandQueue.forEach(({ reject }, id) => reject(...))] *)
Fixpoint rejectAll (q : Map CommandOptions) (y : Yeelight)
  : Yeelight * list effect :=
  match q with
  | [] => (y, [])
  | (_, c) :: q' =>
      let '(y1, e1) := entry_reject (cmd_id c) ConnectionClosed y in
      let '(y2, e2) := rejectAll q' y1 in
      (y2, e1 ++ e2)
  end.

Definition handleClose (y : Yeelight) : Yeelight * list effect :=
  let y1 := with_connected false y in
  let e0 := [Emit disconnected_event] in
  let '(y2, e1) := rejectAll (commandQueue y1) y1 in
  (with_commandQueue [] y2, e0 ++ e1).

(** *** Runs of one session object *)

(** What can happen to the object: a call of a public method, or a
    callback run by the event loop.  The capability methods that are
    not listed ([setPower], [turnOn], [turnOff], [setColorTemperature],
    [setHSV]) either throw before they touch the object or are one
    [Send]. *)
Inductive op :=
| Connect
| SocketConnect                 (* the socket's "connect" event *)
| Disconnect
| Send (m : jsstring) (ps : list json)
| SetBrightness (brightness duration : Z)
| SetRGB (red green blue duration : Z)
| Data (data : Buffer)          (* the socket's "data" event *)
| SocketError                   (* the socket's "error" event *)
| SocketClose                   (* the socket's "close" event *)
| TimerFires (id : Z)           (* the timeout of command [id] elapses *)
| WriteError (c : CommandOptions) (reason : jsstring).

Definition no_outcome (r : Yeelight * list effect) : option outcome * Yeelight * list effect :=
  (None, fst r, snd r).

Definition call (r : result) : option outcome * Yeelight * list effect :=
  let '(o, y, e) := r in (Some o, y, e).

Definition step (o : op) (y : Yeelight) : option outcome * Yeelight * list effect :=
  match o with
  | Connect => no_outcome (connect y)
  | SocketConnect => no_outcome (onConnect y)
  | Disconnect => no_outcome (disconnect y)
  | Send m ps => call (sendCommand m ps y)
  | SetBrightness b d => call (setBrightness b d y)
  | SetRGB r g b d => call (setRGB r g b d y)
  | Data data => no_outcome (handleData data y)
  | SocketError => no_outcome (handleError y)
  | SocketClose => no_outcome (handleClose y)
  | TimerFires id => no_outcome (onCommandTimeout id y)
  | WriteError c reason => no_outcome (onWriteError c reason y)
  end.

Definition step_state (o : op) (y : Yeelight) : Yeelight := snd (fst (step o y)).
Definition step_effects (o : op) (y : Yeelight) : list effect := snd (step o y).

(** The id a step allocates, when it does. *)
Definition step_id (o : op) (y : Yeelight) : option Z :=
  match fst (fst (step o y)) with
  | Some (Pending id) => Some id
  | _ => None
  end.

Fixpoint run (ops : list op) (y : Yeelight) : Yeelight :=
  match ops with
  | [] => y
  | o :: ops' => run ops' (step_state o y)
  end.

Fixpoint run_effects (ops : list op) (y : Yeelight) : list effect :=
  match ops with
  | [] => []
  | o :: ops' => step_effects o y ++ run_effects ops' (step_state o y)
  end.

(** The command ids allocated along a run, in order. *)
Fixpoint allocated (ops : list op) (y : Yeelight) : list Z :=
  match ops with
  | [] => []
  | o :: ops' =>
      match step_id o y with
      | Some id => id :: allocated ops' (step_state o y)
      | None => allocated ops' (step_state o y)
      end
  end.

(** The same ids grouped by connection: those allocated before the
    next "connect" event, then one group per later connection. *)
Fixpoint allocated_by_connection (ops : list op) (y : Yeelight)
  : list Z * list (list Z) :=
  match ops with
  | [] => ([], [])
  | o :: ops' =>
      let '(cur, later) := allocated_by_connection ops' (step_state o y) in
      match o with
      | SocketConnect => ([], cur :: later)
      | _ => (match step_id o y with Some id => id :: cur | None => cur end,
              later)
      end
  end.

(** No step of the run allocates an id that is a key of the pending
    table at that moment. *)
Fixpoint never_reuses_pending (ops : list op) (y : Yeelight) : bool :=
  match ops with
  | [] => true
  | o :: ops' =>
      match step_id o y with
      | Some id => negb (Map_has id (commandQueue y))
      | None => true
      end && never_reuses_pending ops' (step_state o y)
  end.

End Inbound.

End Session.

(** ** A reader for a subset of JSON

    Used to run the handlers on concrete lines.  It accepts [null],
    [true], [false], integers, strings without escapes, arrays and
    objects, with the white space of the grammar; on these it returns
    the value [JSON.parse] returns.  Everything else is refused. *)

Module JsonLite.
Import JS.

Fixpoint skip_ws (s : jsstring) : jsstring :=
  match s with
  | c :: s' => if (c =? 32) || (c =? 9) || (c =? 10) || (c =? 13)
               then skip_ws s' else s
  | [] => []
  end.

Definition is_digit (c : Z) : bool := (48 <=? c) && (c <=? 57).

(** Digits at the front of [s], as a number, and what follows. *)
Fixpoint digits (acc : Z) (s : jsstring) : Z * jsstring :=
  match s with
  | c :: s' => if is_digit c then digits (acc * 10 + (c - 48)) s' else (acc, s)
  | [] => (acc, [])
  end.

(** After the opening quote: the characters up to the closing one. *)
Fixpoint string_body (s : jsstring) : option (jsstring * jsstring) :=
  match s with
  | [] => None
  | c :: s' =>
      if c =? 34 then Some ([], s')
      else if (c =? 92) || (c <? 32) then None
      else match string_body s' with
           | Some (t, r) => Some (c :: t, r)
           | None => None
           end
  end.

(** A number may not go on with a fraction or an exponent here. *)
Definition number_end (s : jsstring) : bool :=
  match s with
  | c :: _ => negb ((c =? 46) || (c =? 101) || (c =? 69))
  | [] => true
  end.

Definition unsigned (s : jsstring) : option (Z * jsstring) :=
  match s with
  | c :: s' =>
      if c =? 48 then
        match s' with
        | d :: _ => if is_digit d then None else
                      if number_end s' then Some (0, s') else None
        | [] => Some (0, [])
        end
      else if is_digit c then
        let '(n, r) := digits 0 s in
        if number_end r then Some (n, r) else None
      else None
  | [] => None
  end.

(** A later binding of a key replaces the earlier one, in its place. *)
Fixpoint define (k : jsstring) (v : json) (m : list (jsstring * json))
  : list (jsstring * json) :=
  match m with
  | [] => [(k, v)]
  | (k', v') :: m' => if streqb k k' then (k, v) :: m'
                      else (k', v') :: define k v m'
  end.

Fixpoint value (fuel : nat) (s : jsstring) : option (json * jsstring) :=
  match fuel with
  | O => None
  | S fuel' =>
      match skip_ws s with
      | 110 :: 117 :: 108 :: 108 :: r => Some (JNull, r)
      | 116 :: 114 :: 117 :: 101 :: r => Some (JBool true, r)
      | 102 :: 97 :: 108 :: 115 :: 101 :: r => Some (JBool false, r)
      | 34 :: r =>
          match string_body r with
          | Some (t, r') => Some (JStr t, r')
          | None => None
          end
      | 91 :: r =>
          match skip_ws r with
          | 93 :: r' => Some (JArr [], r')
          | _ => match elements fuel' r with
                 | Some (vs, r') => Some (JArr vs, r')
                 | None => None
                 end
          end
      | 123 :: r =>
          match skip_ws r with
          | 125 :: r' => Some (JObj [], r')
          | _ => match members fuel' [] r with
                 | Some (m, r') => Some (JObj m, r')
                 | None => None
                 end
          end
      | 45 :: r =>
          match unsigned r with
          | Some (n, r') => Some (JNum (- n), r')
          | None => None
          end
      | r =>
          match unsigned r with
          | Some (n, r') => Some (JNum n, r')
          | None => None
          end
      end
  end
with elements (fuel : nat) (s : jsstring) : option (list json * jsstring) :=
  match fuel with
  | O => None
  | S fuel' =>
      match value fuel' s with
      | Some (v, r) =>
          match skip_ws r with
          | 93 :: r' => Some ([v], r')
          | 44 :: r' =>
              match elements fuel' r' with
              | Some (vs, r'') => Some (v :: vs, r'')
              | None => None
              end
          | _ => None
          end
      | None => None
      end
  end
with members (fuel : nat) (acc : list (jsstring * json)) (s : jsstring)
  : option (list (jsstring * json) * jsstring) :=
  match fuel with
  | O => None
  | S fuel' =>
      match skip_ws s with
      | 34 :: r =>
          match string_body r with
          | Some (k, r1) =>
              match skip_ws r1 with
              | 58 :: r2 =>
                  match value fuel' r2 with
                  | Some (v, r3) =>
                      match skip_ws r3 with
                      | 125 :: r4 => Some (define k v acc, r4)
                      | 44 :: r4 => members fuel' (define k v acc) r4
                      | _ => None
                      end
                  | None => None
                  end
              | _ => None
              end
          | None => None
          end
      | _ => None
      end
  end.

Definition parse (s : jsstring) : option json :=
  match value (2 * List.length s + 2) s with
  | Some (v, r) => match skip_ws r with [] => Some v | _ => None end
  | None => None
  end.

End JsonLite.

(** ** The discovery scanner: [class Discovery] *)

Module Discovery.
Import JS.

(** *** String operations of [parseResponse] *)

(** Case folding of a regular expression with the [i] flag and
    without the [u] flag, on the ASCII letters of the patterns used
    here: a code unit outside ASCII never folds onto an ASCII one. *)
Definition canonicalize (c : Z) : Z :=
  if (97 <=? c) && (c <=? 122) then c - 32 else c.

Fixpoint startsWith_ci (pattern s : jsstring) : bool :=
  match pattern, s with
  | [], _ => true
  | _ :: _, [] => false
  | x :: pattern', y :: s' =>
      (canonicalize x =? canonicalize y) && startsWith_ci pattern' s'
  end.

(** The longest prefix matched by [[^\r\n]*]. *)
Fixpoint line_rest (s : jsstring) : jsstring :=
  match s with
  | [] => []
  | c :: s' => if (c =? CR) || (c =? LF) then [] else c :: line_rest s'
  end.

(** A match of [prefix([^\r\n]+)] at the start of [s]: the group. *)
Definition match_here (prefix s : jsstring) : option jsstring :=
  if startsWith_ci prefix s then
    match line_rest (skipn (List.length prefix) s) with
    | [] => None
    | v => Some v
    end
  else None.

(** [s.match(new RegExp(prefix + "([^\r\n]+)", "i"))?.[1]]: the
    group of the leftmost match. *)
Fixpoint match_group (prefix s : jsstring) : option jsstring :=
  match match_here prefix s with
  | Some v => Some v
  | None => match s with
            | [] => None
            | _ :: s' => match_group prefix s'
            end
  end.

(** [s.replace(needle, empty)]: the first occurrence is removed. *)
Fixpoint remove_first (needle s : jsstring) : jsstring :=
  if startsWith needle s then skipn (List.length needle) s
  else match s with
       | [] => []
       | c :: s' => c :: remove_first needle s'
       end.

(** [s.split(sep)] for a separator of one code unit. *)
Fixpoint split (sep : Z) (s : jsstring) : list jsstring :=
  match s with
  | [] => [[]]
  | c :: s' =>
      if c =? sep then [] :: split sep s'
      else match split sep s' with
           | l :: ls => (c :: l) :: ls
           | [] => [[c]]
           end
  end.

(** *** [parseInt] *)

Definition is_space (c : Z) : bool :=
  ((9 <=? c) && (c <=? 13)) || (c =? 32) || (c =? 0xA0) || (c =? 0x1680)
  || ((0x2000 <=? c) && (c <=? 0x200A)) || (c =? 0x2028) || (c =? 0x2029)
  || (c =? 0x202F) || (c =? 0x205F) || (c =? 0x3000) || (c =? 0xFEFF).

Fixpoint trim_start (s : jsstring) : jsstring :=
  match s with
  | c :: s' => if is_space c then trim_start s' else s
  | [] => []
  end.

Definition digit_value (c : Z) : option Z :=
  if (48 <=? c) && (c <=? 57) then Some (c - 48)
  else if (97 <=? c) && (c <=? 122) then Some (c - 87)
  else if (65 <=? c) && (c <=? 90) then Some (c - 55)
  else None.

(** The digits of the radix at the front of [s]; [acc] is [None]
    until the first one. *)
Fixpoint int_digits (radix : Z) (acc : option Z) (s : jsstring) : option Z :=
  match s with
  | [] => acc
  | c :: s' =>
      match digit_value c with
      | Some d =>
          if d <? radix
          then int_digits radix
                 (Some (match acc with Some a => a * radix + d | None => d end)) s'
          else acc
      | None => acc
      end
  end.

(** [parseInt(s)] with no radix argument; [None] is [NaN] (also the
    result for [undefined]).  The value is the one of the digits,
    which is the number returned as long as it is below 2^53. *)
Definition parseInt (s : option jsstring) : option Z :=
  match s with
  | None => None
  | Some s =>
      let s1 := trim_start s in
      let '(sign, s2) := match s1 with
                         | 45 :: r => (-1, r)
                         | 43 :: r => (1, r)
                         | _ => (1, s1)
                         end in
      let '(radix, s3) := match s2 with
                          | 48 :: 120 :: r => (16, r)
                          | 48 :: 88 :: r => (16, r)
                          | _ => (10, s2)
                          end in
      match int_digits radix None s3 with
      | Some n => Some (sign * n)
      | None => None
      end
  end.

(** *** Device records and the result set *)

(** [interface DeviceInfo]; [dev_id] is its field [id]. *)
Record DeviceInfo := {
  ip : jsstring;
  port : option Z;
  dev_id : option jsstring;
  model : option jsstring;
  name : option jsstring;
  firmware : option jsstring;
  support : option (list jsstring);
  power : option jsstring
}.

(** [Map<string, DeviceInfo>]: insertion-ordered, one entry per key. *)
Definition DeviceMap := list (jsstring * DeviceInfo).

Definition devices_get (k : jsstring) (m : DeviceMap) : option DeviceInfo :=
  assoc k m.

Definition devices_has (k : jsstring) (m : DeviceMap) : bool :=
  match devices_get k m with Some _ => true | None => false end.

Fixpoint devices_set (k : jsstring) (d : DeviceInfo) (m : DeviceMap) : DeviceMap :=
  match m with
  | [] => [(k, d)]
  | (k', d') :: m' =>
      if streqb k k' then (k, d) :: m' else (k', d') :: devices_set k d m'
  end.

(** [Array.from(devices.values())] *)
Definition devices_values (m : DeviceMap) : list DeviceInfo := map snd m.

(** *** The cache file *)

Inductive store :=
| Missing
| Corrupt
| Stored (devices : list DeviceInfo).

Definition loadCache (f : store) : list DeviceInfo :=
  match f with
  | Stored devices => devices
  | Missing | Corrupt => []
  end.

(** *** parseResponse *)

Definition extractValue (response key : jsstring) : option jsstring :=
  match_group (key ++ js ": ") response.

(** The first two parts of the location, once the scheme is removed:
    [const [ip, port] = location[1].replace(...).split(":")]. *)
Definition location_parts (response : jsstring)
  : option (jsstring * option jsstring) :=
  match match_group (js "Location: ") response with
  | None => None
  | Some location =>
      match split 58 (remove_first (js "yeelight://") location) with
      | [] => Some ([], None)
      | [i] => Some (i, None)
      | i :: p :: _ => Some (i, Some p)
      end
  end.

(** The record built from a response whose location gave [i], [p]. *)
Definition device_of (response i : jsstring) (p : option jsstring) : DeviceInfo :=
  {| ip := i;
     port := parseInt p;
     dev_id := extractValue response (js "id");
     model := extractValue response (js "model");
     name := extractValue response (js "name");
     firmware := extractValue response (js "fw_ver");
     support := match extractValue response (js "support") with
                | Some v => Some (split 32 v)
                | None => None
                end;
     power := extractValue response (js "power") |}.

Definition parseResponse (response : jsstring) (devices : DeviceMap) : DeviceMap :=
  match location_parts response with
  | None => devices
  | Some (i, p) =>
      if negb (devices_has i devices)
      then devices_set i (device_of response i p) devices
      else devices
  end.

(** *** discover *)

(** [cachedDevices.forEach((device) => devices.set(device.ip, device))] *)
Fixpoint seed (cached : list DeviceInfo) (devices : DeviceMap) : DeviceMap :=
  match cached with
  | [] => devices
  | d :: cached' => seed cached' (devices_set (ip d) d devices)
  end.

(** The "message" listener of every socket of the scan. *)
Definition onMessage (msg : Buffer) (devices : DeviceMap) : DeviceMap :=
  let response := toString msg in
  if includes (js "yeelight") response
  then parseResponse response devices
  else devices.

Fixpoint receive (msgs : list Buffer) (devices : DeviceMap) : DeviceMap :=
  match msgs with
  | [] => devices
  | msg :: msgs' => receive msgs' (onMessage msg devices)
  end.

(** [discover(timeout, useCache)], given the cache file and the
    datagrams that the sockets of the scan hand to their listeners
    before the timeout ends it, in the order of their delivery. *)
Definition discovered (useCache : bool) (f : store) (msgs : list Buffer)
  : DeviceMap :=
  let devices := if useCache then seed (loadCache f) [] else [] in
  receive msgs devices.

Definition discover (useCache : bool) (f : store) (msgs : list Buffer)
  : list DeviceInfo :=
  devices_values (discovered useCache f msgs).

End Discovery.

(** ** The other capability methods of [class Yeelight] *)

Module Capabilities.
Import JS Session.

(** [enum PowerMode] *)
Inductive PowerMode :=
| Normal
| ColorTemperature
| RGB
| HSV
| ColorFlow
| NightLight.

Definition PowerMode_value (m : PowerMode) : Z :=
  match m with
  | Normal => 0
  | ColorTemperature => 1
  | RGB => 2
  | HSV => 3
  | ColorFlow => 4
  | NightLight => 5
  end.

(** The type ["on" | "off"]. *)
Inductive power_state := on | off.

Definition power_string (p : power_state) : jsstring :=
  match p with
  | on => js "on"
  | off => js "off"
  end.

Definition setPower (p : power_state) (mode : PowerMode) (duration : Z)
  (y : Yeelight) : result :=
  sendCommand (js "set_power")
    [JStr (power_string p); JNum (PowerMode_value mode); JNum duration] y.

Definition turnOn (duration : Z) (y : Yeelight) : result :=
  setPower on Normal duration y.

Definition turnOff (duration : Z) (y : Yeelight) : result :=
  setPower off Normal duration y.

Definition TemperatureValidationError : YeelightError :=
  error_of "Color temperature must be between 1700 and 6500K" None.
Definition HueValidationError : YeelightError :=
  error_of "Hue must be between 0 and 359" None.
Definition SaturationValidationError : YeelightError :=
  error_of "Saturation must be between 0 and 100" None.

Definition setColorTemperature (temperature duration : Z) (y : Yeelight)
  : result :=
  if (temperature <? 1700) || (temperature >? 6500)
  then (Thrown TemperatureValidationError, y, [])
  else sendCommand (js "set_ct_abx")
         [JNum temperature; JStr (js "smooth"); JNum duration] y.

Definition setHSV (hue saturation duration : Z) (y : Yeelight) : result :=
  if (hue <? 0) || (hue >? 359)
  then (Thrown HueValidationError, y, [])
  else if (saturation <? 0) || (saturation >? 100)
  then (Thrown SaturationValidationError, y, [])
  else sendCommand (js "set_hsv")
         [JNum hue; JNum saturation; JStr (js "smooth"); JNum duration] y.

(** A call of one of the public capability methods, with integral
    arguments. *)
Inductive call :=
| SetPower (p : power_state) (mode : PowerMode) (duration : Z)
| TurnOn (duration : Z)
| TurnOff (duration : Z)
| SetBrightness (brightness duration : Z)
| SetRGB (red green blue duration : Z)
| SetColorTemperature (temperature duration : Z)
| SetHSV (hue saturation duration : Z).

Definition invoke (c : call) (y : Yeelight) : result :=
  match c with
  | SetPower p mode d => setPower p mode d y
  | TurnOn d => turnOn d y
  | TurnOff d => turnOff d y
  | SetBrightness b d => setBrightness b d y
  | SetRGB r g b d => setRGB r g b d y
  | SetColorTemperature t d => setColorTemperature t d y
  | SetHSV h s d => setHSV h s d y
  end.

End Capabilities.

(** ** The cache file operations of [class Discovery] *)

Module Cache.
Import JS Discovery.

(** What [fs.writeFileSync] did: it wrote the file, or it threw and
    left the file in some state. *)
Inductive write_result :=
| Written
| WriteFailed (remains : store).

(** [saveCache(devices)]: a failure of the write is caught and only
    warned about.  The file written for [devices] reads back as
    [devices] when every port is a number; [JSON.stringify] writes a
    [NaN] port as [null]. *)
Definition saveCache (w : write_result) (devices : list DeviceInfo) : store :=
  match w with
  | Written => Stored devices
  | WriteFailed remains => remains
  end.

Definition getKnownDevices (f : store) : list DeviceInfo := loadCache f.

(** [a.findIndex(p)] *)
Fixpoint findIndex {A} (p : A -> bool) (a : list A) : Z :=
  match a with
  | [] => -1
  | x :: a' =>
      if p x then 0
      else let r := findIndex p a' in if r <? 0 then -1 else r + 1
  end.

(** [a[i] = v] for an index [i] of the array. *)
Definition assign {A} (a : list A) (i : Z) (v : A) : list A :=
  firstn (Z.to_nat i) a ++ v :: skipn (Z.to_nat i + 1) a.

Definition addDeviceManually (w : write_result) (deviceInfo : DeviceInfo)
  (f : store) : store :=
  let devices := loadCache f in
  let existingIndex :=
    findIndex (fun d => streqb (ip d) (ip deviceInfo)) devices in
  let devices' :=
    if existingIndex >=? 0
    then assign devices existingIndex deviceInfo
    else devices ++ [deviceInfo] in
  saveCache w devices'.

Definition removeDevice (w : write_result) (ip0 : jsstring) (f : store) : store :=
  let devices := loadCache f in
  let filteredDevices := filter (fun d => negb (streqb (ip d) ip0)) devices in
  saveCache w filteredDevices.

End Cache.

(** ** Properties of the session *)

Module SessionProps.
Import JS Session.

(** *** The pending table *)

Lemma Map_get_delete_same {V} (k : Z) (m : Map V) :
  Map_get k (Map_delete k m) = None.
Proof.
  induction m as [|[k' v] m IH]; simpl; auto.
  destruct (k =? k') eqn:E; simpl; auto.
  now rewrite E.
Qed.

Lemma Map_get_delete_other {V} (k k' : Z) (m : Map V) :
  k' <> k -> Map_get k' (Map_delete k m) = Map_get k' m.
Proof.
  intros Hne. induction m as [|[k0 v] m IH]; simpl; auto.
  destruct (k =? k0) eqn:E.
  - apply Z.eqb_eq in E. subst k0.
    destruct (k' =? k) eqn:E'; auto.
    apply Z.eqb_eq in E'. contradiction.
  - simpl. now rewrite IH.
Qed.

Lemma Map_get_set_same {V} (k : Z) (v : V) (m : Map V) :
  Map_get k (Map_set k v m) = Some v.
Proof.
  induction m as [|[k' v'] m IH]; simpl.
  - now rewrite Z.eqb_refl.
  - destruct (k =? k') eqn:E; simpl; rewrite ?Z.eqb_refl, ?E; auto.
Qed.

Lemma Map_get_set_other {V} (k k' : Z) (v : V) (m : Map V) :
  k' <> k -> Map_get k' (Map_set k v m) = Map_get k' m.
Proof.
  intros Hne. apply Z.eqb_neq in Hne.
  induction m as [|[k0 v0] m IH]; simpl.
  - now rewrite Hne.
  - destruct (k =? k0) eqn:E; simpl.
    + apply Z.eqb_eq in E. subst k0. now rewrite Hne.
    + now rewrite IH.
Qed.



Lemma Map_has_keys {V} (k : Z) (m : Map V) :
  Map_has k m = true -> In k (Map_keys m).
Proof.
  unfold Map_has. induction m as [|[k' v] m IH]; simpl; [discriminate|].
  destruct (k =? k') eqn:E.
  - apply Z.eqb_eq in E. auto.
  - auto.
Qed.

(** *** sendCommand *)

Definition is_connected (y : Yeelight) : Prop :=
  connected y = true /\ socket y <> None.

Lemma sendCommand_connected m ps y :
  is_connected y ->
  sendCommand m ps y =
    (let id := incr (messageId y) in
     let c := {| cmd_id := id; method := m; params := ps |} in
     (Pending id,
      {| socket := socket y; messageId := id; connected := connected y;
         commandQueue := Map_set id c (commandQueue y);
         buffer := buffer y;
         timers := Map_set id c (timers y) |},
      [Write c])).
Proof.
  intros [Hc Hs]. destruct y as [s n c q b t]; simpl in *. subst c.
  unfold sendCommand; simpl.
  destruct s; [reflexivity | congruence].
Qed.

(** On a connected session [sendCommand] registers its command
    under the new id, arms its timeout, and touches no other entry. *)
Lemma sendCommand_registers m ps y k :
  is_connected y ->
  let '(_, y', _) := sendCommand m ps y in
  let id := incr (messageId y) in
  let c := {| cmd_id := id; method := m; params := ps |} in
  Map_get id (commandQueue y') = Some c /\
  Map_get id (timers y') = Some c /\
  (k <> id ->
   Map_get k (commandQueue y') = Map_get k (commandQueue y) /\
   Map_get k (timers y') = Map_get k (timers y)).
Proof.
  intros Hc. rewrite (sendCommand_connected _ _ _ Hc). cbv zeta. simpl.
  rewrite !Map_get_set_same. repeat split; auto.
  - now apply Map_get_set_other.
  - now apply Map_get_set_other.
Qed.

(** The writes among the effects of a handler. *)
Definition writes (e : list effect) : list CommandOptions :=
  flat_map (fun x => match x with Write c => [c] | _ => [] end) e.

(** C7.  A [sendCommand] made while the session is not connected
    (the flag is off, or there is no socket) throws the
    "Not connected to device" error; the object, and with it the id
    counter, is unchanged, and nothing is written to the transport. *)
Theorem sendCommand_not_connected (m : jsstring) (ps : list json) (y : Yeelight) :
  connected y = false \/ socket y = None ->
  let '(o, y', e) := sendCommand m ps y in
  o = Thrown NotConnected /\
  y' = y /\ messageId y' = messageId y /\
  e = [] /\ writes e = [].
Proof.
  intros H. unfold sendCommand.
  destruct H as [H | H]; rewrite H; simpl.
  - repeat split.
  - rewrite orb_true_r. repeat split.
Qed.

Lemma sendCommand_not_connected_witness :
  let y := new_Yeelight in
  let '(o, y', e) := sendCommand (js "set_power") [JStr (js "on")] y in
  o = Thrown NotConnected /\
  y' = y /\ messageId y' = messageId y /\
  e = [] /\ writes e = [].
Proof.
  apply (sendCommand_not_connected (js "set_power") [JStr (js "on")] new_Yeelight).
  left. reflexivity.
Defined.

(** A connected session with [n] ids already used and nothing pending. *)
Definition connected_session (n : Z) : Yeelight :=
  {| socket := Some TcpSocket; messageId := n; connected := true;
     commandQueue := []; buffer := []; timers := [] |}.

(** C9.  [setBrightness] throws the brightness validation error for 0
    and for 101, in every state, leaving the object as it was and
    writing nothing; on a connected session the values 1 and 100 pass
    and each makes exactly one write, of the [set_bright] command
    carrying that value. *)
Theorem setBrightness_boundaries (duration : Z) (y : Yeelight) :
  (forall b, b = 0 \/ b = 101 ->
     setBrightness b duration y = (Thrown BrightnessValidationError, y, [])) /\
  (is_connected y ->
   forall b, b = 1 \/ b = 100 ->
     exists c y',
       setBrightness b duration y = (Pending (cmd_id c), y', [Write c]) /\
       writes [Write c] = [c] /\
       method c = js "set_bright" /\
       params c = [JNum b; JStr (js "smooth"); JNum duration]).
Proof.
  split.
  - intros b [-> | ->]; reflexivity.
  - intros Hc b Hb.
    assert (Hin : (b <? 1) || (b >? 100) = false)
      by (destruct Hb as [-> | ->]; reflexivity).
    unfold setBrightness. rewrite Hin.
    rewrite (sendCommand_connected _ _ _ Hc). cbv zeta.
    exists {| cmd_id := incr (messageId y); method := js "set_bright";
              params := [JNum b; JStr (js "smooth"); JNum duration] |}.
    eexists; split; [reflexivity|]. simpl. auto.
Qed.

Lemma setBrightness_boundaries_witness :
  setBrightness 101 500 (connected_session 0) =
    (Thrown BrightnessValidationError, connected_session 0, []) /\
  exists c y',
    setBrightness 100 500 (connected_session 0) =
      (Pending (cmd_id c), y', [Write c]) /\
    writes [Write c] = [c] /\
    method c = js "set_bright" /\
    params c = [JNum 100; JStr (js "smooth"); JNum 500].
Proof.
  destruct (setBrightness_boundaries 500 (connected_session 0)) as [Hrej Hacc].
  split.
  - apply Hrej. right. reflexivity.
  - apply Hacc.
    + split; [reflexivity | discriminate].
    + right. reflexivity.
Defined.

(** The packed colour of in-range components (design document,
    testable property 7). *)
Example pack_rgb_red : pack_rgb 255 0 0 = 16711680.
Proof. reflexivity. Qed.
Example pack_rgb_green : pack_rgb 0 255 0 = 65280.
Proof. reflexivity. Qed.
Example pack_rgb_blue : pack_rgb 0 0 255 = 255.
Proof. reflexivity. Qed.
Example pack_rgb_negative : pack_rgb (-1) 0 0 = -65536.
Proof. reflexivity. Qed.

(** *** The 32-bit operators of [setRGB] *)

Lemma ToInt32_cases (x : Z) :
  ToInt32 x =
  if x mod 4294967296 <? 2147483648
  then x mod 4294967296 else x mod 4294967296 - 4294967296.
Proof.
  unfold ToInt32. change (2 ^ 31) with 2147483648.
  change (2 ^ 32) with 4294967296.
  destruct (x mod 4294967296 <? 2147483648) eqn:E;
    [apply Z.ltb_lt in E | apply Z.ltb_ge in E];
    Z.to_euclidean_division_equations; lia.
Qed.

Lemma testbit_small (a k n : Z) :
  0 <= a < 2 ^ k -> 0 <= k <= n -> Z.testbit a n = false.
Proof.
  intros Ha Hk. apply Z.testbit_false; [lia|].
  rewrite Z.div_small; [reflexivity|].
  split; [lia|]. apply Z.lt_le_trans with (2 ^ k); [lia|].
  apply Z.pow_le_mono_r; lia.
Qed.

Lemma testbit_negative (a k n : Z) :
  - 2 ^ k <= a < 0 -> 0 <= k <= n -> Z.testbit a n = true.
Proof.
  intros Ha Hk. apply Z.testbit_true; [lia|].
  assert (Hp : 2 ^ k <= 2 ^ n) by (apply Z.pow_le_mono_r; lia).
  assert (Hq : a / 2 ^ n = -1).
  { symmetry. apply (Z.div_unique a (2 ^ n) (-1) (a + 2 ^ n)); lia. }
  rewrite Hq. reflexivity.
Qed.

Lemma ToInt32_testbit (x n : Z) :
  0 <= n -> Z.testbit (ToInt32 x) n = Z.testbit x (Z.min n 31).
Proof.
  intros Hn. rewrite ToInt32_cases.
  change 4294967296 with (2 ^ 32). change 2147483648 with (2 ^ 31).
  pose proof (Z.mod_pos_bound x (2 ^ 32) eq_refl) as Hm.
  assert (Hlow : forall i, i < 32 ->
            Z.testbit (x mod 2 ^ 32) i = Z.testbit x i)
    by (intros i Hi; now apply Z.mod_pow2_bits_low).
  destruct (x mod 2 ^ 32 <? 2 ^ 31) eqn:E;
    [apply Z.ltb_lt in E | apply Z.ltb_ge in E].
  - destruct (Z.le_gt_cases n 31) as [Hle | Hgt].
    + rewrite Z.min_l by lia. apply Hlow. lia.
    + rewrite Z.min_r by lia. rewrite <- (Hlow 31) by lia.
      rewrite (testbit_small _ 31 n), (testbit_small _ 31 31); auto; lia.
  - assert (Hsame : forall i, i < 32 ->
              Z.testbit (x mod 2 ^ 32 - 2 ^ 32) i = Z.testbit x i).
    { intros i Hi. rewrite <- (Hlow i Hi).
      rewrite <- (Z.mod_pow2_bits_low (x mod 2 ^ 32 - 2 ^ 32) 32 i Hi).
      replace (x mod 2 ^ 32 - 2 ^ 32) with (x mod 2 ^ 32 + (-1) * 2 ^ 32) by lia.
      rewrite Z.mod_add by (change (2 ^ 32) with 4294967296; lia).
      now rewrite Z.mod_mod by (change (2 ^ 32) with 4294967296; lia). }
    destruct (Z.le_gt_cases n 31) as [Hle | Hgt].
    + rewrite Z.min_l by lia. apply Hsame. lia.
    + rewrite Z.min_r by lia. rewrite <- (Hsame 31) by lia.
      change (2 ^ 32) with 4294967296 in *. change (2 ^ 31) with 2147483648 in *.
      rewrite (testbit_negative _ 31 n), (testbit_negative _ 31 31); auto;
        change (2 ^ 31) with 2147483648; lia.
Qed.

Lemma min_31 (n : Z) : 0 <= n -> 0 <= Z.min n 31 /\ Z.min (Z.min n 31) 31 = Z.min n 31.
Proof. lia. Qed.

Lemma bor_testbit (x y n : Z) :
  0 <= n ->
  Z.testbit (bor x y) n =
  Z.testbit x (Z.min n 31) || Z.testbit y (Z.min n 31).
Proof.
  intros Hn. unfold bor. now rewrite Z.lor_spec, !ToInt32_testbit.
Qed.

Lemma shl_testbit (a k i : Z) :
  0 <= k -> 0 <= i <= 31 ->
  Z.testbit (shl a k) i = Z.testbit (a * 2 ^ k) i.
Proof.
  intros Hk Hi. unfold shl. rewrite ToInt32_testbit by lia.
  rewrite Z.min_l by lia.
  rewrite <- (Z.shiftl_mul_pow2 a k Hk), !Z.shiftl_spec by lia.
  destruct (Z.lt_ge_cases (i - k) 0) as [Hneg | Hpos].
  - now rewrite !Z.testbit_neg_r.
  - rewrite ToInt32_testbit by lia. now rewrite Z.min_l by lia.
Qed.

Lemma pack_rgb_value (red green blue : Z) :
  pack_rgb red green blue =
  ToInt32 (Z.lor (Z.lor (red * 65536) (green * 256)) blue).
Proof.
  apply Z.bits_inj'. intros n Hn. unfold pack_rgb.
  destruct (min_31 n Hn) as [H0 Hmin].
  rewrite bor_testbit, ToInt32_testbit by lia.
  rewrite bor_testbit by lia. rewrite Hmin.
  rewrite !shl_testbit by lia.
  now rewrite !Z.lor_spec.
Qed.

Lemma ToInt32_small (x : Z) :
  - 2147483648 <= x < 2147483648 -> ToInt32 x = x.
Proof.
  intros H. unfold ToInt32. change (2 ^ 31) with 2147483648.
  change (2 ^ 32) with 4294967296. rewrite Z.mod_small; lia.
Qed.

Lemma lor_disjoint (hi lo k : Z) :
  0 <= k -> 0 <= lo < 2 ^ k -> Z.lor (hi * 2 ^ k) lo = hi * 2 ^ k + lo.
Proof.
  intros Hk Hlo.
  assert (Hland : Z.land (hi * 2 ^ k) lo = 0).
  { apply Z.bits_inj'. intros n Hn. rewrite Z.land_spec, Z.bits_0.
    destruct (Z.lt_ge_cases n k) as [Hlt | Hge].
    - now rewrite Z.mul_pow2_bits_low.
    - rewrite (testbit_small lo k n) by lia. apply andb_false_r. }
  rewrite <- Z.lxor_lor by exact Hland.
  symmetry. now apply Z.add_nocarry_lxor.
Qed.

Lemma pack_rgb_in_range (red green blue : Z) :
  0 <= red <= 255 -> 0 <= green <= 255 -> 0 <= blue <= 255 ->
  pack_rgb red green blue = red * 65536 + green * 256 + blue.
Proof.
  intros Hr Hg Hb. rewrite pack_rgb_value.
  assert (H1 : Z.lor (red * 65536) (green * 256) = (red * 256 + green) * 2 ^ 8).
  { change 65536 with (2 ^ 16). rewrite lor_disjoint.
    - change (2 ^ 16) with 65536. change (2 ^ 8) with 256. lia.
    - lia.
    - change (2 ^ 16) with 65536. lia. }
  rewrite H1, lor_disjoint.
  - change (2 ^ 8) with 256. rewrite ToInt32_small; lia.
  - lia.
  - change (2 ^ 8) with 256. lia.
Qed.

(** C10.  [setRGB] checks no range: whatever the integers [red],
    [green], [blue], the only error it can throw is the one of a
    session that is not connected, and on a connected session it
    writes one [set_rgb] command whose first parameter is
    [(red << 16) | (green << 8) | blue]: the bitwise or of
    [red * 65536], [green * 256] and [blue], reduced modulo 2^32 into
    the signed 32-bit range.  For components in 0..255 this is
    [red * 65536 + green * 256 + blue]; components outside 0..255
    collide with other colours: (0, 256, 0) and (1, 0, 0) are both
    sent as 65536, (65536, 0, 0) as 0, (32768, 0, 0) as -2147483648. *)
Theorem setRGB_unvalidated (red green blue duration : Z) (y : Yeelight) :
  (forall e, fst (fst (setRGB red green blue duration y)) = Thrown e ->
             e = NotConnected) /\
  (is_connected y ->
   exists y',
     let rgb :=
       (Z.lor (Z.lor (red * 65536) (green * 256)) blue + 2147483648)
         mod 4294967296 - 2147483648 in
     let c := {| cmd_id := incr (messageId y); method := js "set_rgb";
                 params := [JNum rgb; JStr (js "smooth"); JNum duration] |} in
     setRGB red green blue duration y = (Pending (cmd_id c), y', [Write c])) /\
  (0 <= red <= 255 -> 0 <= green <= 255 -> 0 <= blue <= 255 ->
   pack_rgb red green blue = red * 65536 + green * 256 + blue) /\
  (pack_rgb 0 256 0 = 65536 /\ pack_rgb 1 0 0 = 65536 /\
   pack_rgb 65536 0 0 = 0 /\ pack_rgb 32768 0 0 = -2147483648 /\
   pack_rgb 255 255 (-1) = -1).
Proof.
  split; [|split; [|split]].
  - intros e. unfold setRGB, sendCommand.
    destruct (negb (connected y) || _); simpl; congruence.
  - intros Hc. unfold setRGB.
    rewrite (sendCommand_connected _ _ _ Hc). cbv zeta.
    rewrite pack_rgb_value. eexists. reflexivity.
  - apply pack_rgb_in_range.
  - repeat split; reflexivity.
Qed.

Lemma setRGB_unvalidated_witness :
  exists y',
    let c := {| cmd_id := 1; method := js "set_rgb";
                params := [JNum 65536; JStr (js "smooth"); JNum 500] |} in
    setRGB 0 256 0 500 (connected_session 0) = (Pending 1, y', [Write c]).
Proof.
  apply (proj1 (proj2 (setRGB_unvalidated 0 256 0 500 (connected_session 0)))).
  split; [reflexivity | discriminate].
Defined.

(** *** Command timeout *)

(** C8.  When the timeout armed for command [id] elapses (it was not
    cleared, so no response settled the command), its callback rejects
    the promise of [id] with the "Command timeout" error and removes
    [id] from the pending table; every other entry of the table and
    every other armed timeout stay as they were, and so does the rest
    of the object. *)
Theorem onCommandTimeout_isolated (id : Z) (c : CommandOptions) (y : Yeelight) :
  Map_get id (timers y) = Some c ->
  let '(y', e) := onCommandTimeout id y in
  e = [Reject id (CommandTimeout c)] /\
  Map_get id (commandQueue y') = None /\
  Map_get id (timers y') = None /\
  (forall k, k <> id ->
     Map_get k (commandQueue y') = Map_get k (commandQueue y) /\
     Map_get k (timers y') = Map_get k (timers y)) /\
  messageId y' = messageId y /\ connected y' = connected y /\
  socket y' = socket y /\ buffer y' = buffer y.
Proof.
  intros Ht. unfold onCommandTimeout. rewrite Ht. simpl.
  repeat split; auto using Map_get_delete_same.
  - now apply Map_get_delete_other.
  - now apply Map_get_delete_other.
Qed.

(** Two commands in flight, ids 1 and 2. *)
Definition two_pending : Yeelight :=
  snd (fst (sendCommand (js "get_prop") [JStr (js "power")]
    (snd (fst (sendCommand (js "toggle") [] (connected_session 0)))))).

Lemma onCommandTimeout_isolated_witness :
  let c := {| cmd_id := 1; method := js "toggle"; params := [] |} in
  let '(y', e) := onCommandTimeout 1 two_pending in
  e = [Reject 1 (CommandTimeout c)] /\
  Map_get 1 (commandQueue y') = None /\
  Map_get 1 (timers y') = None /\
  (forall k, k <> 1 ->
     Map_get k (commandQueue y') = Map_get k (commandQueue two_pending) /\
     Map_get k (timers y') = Map_get k (timers two_pending)) /\
  messageId y' = messageId two_pending /\
  connected y' = connected two_pending /\
  socket y' = socket two_pending /\ buffer y' = buffer two_pending.
Proof.
  apply (onCommandTimeout_isolated 1
           {| cmd_id := 1; method := js "toggle"; params := [] |} two_pending).
  reflexivity.
Defined.

(** *** Transport close *)

Definition rejections (e : list effect) : list (Z * YeelightError) :=
  flat_map (fun x => match x with Reject id r => [(id, r)] | _ => [] end) e.

Definition resolutions (e : list effect) : list (Z * json) :=
  flat_map (fun x => match x with Resolve id v => [(id, v)] | _ => [] end) e.

(** The rejection [handleClose] makes for an entry of the table. *)
Definition closed (kc : Z * CommandOptions) : effect :=
  Reject (cmd_id (snd kc)) ConnectionClosed.

Definition clear_timers (q t : Map CommandOptions) : Map CommandOptions :=
  fold_left (fun t kc => Map_delete (cmd_id (snd kc)) t) q t.

Lemma rejectAll_spec (q : Map CommandOptions) (y : Yeelight) :
  rejectAll q y = (with_timers (clear_timers q (timers y)) y, map closed q).
Proof.
  revert y. induction q as [|[k c] q IH]; intros y.
  - destruct y; reflexivity.
  - simpl. rewrite IH. destruct y; reflexivity.
Qed.

Lemma handleClose_spec (y : Yeelight) :
  handleClose y =
    ({| socket := socket y; messageId := messageId y; connected := false;
        commandQueue := []; buffer := buffer y;
        timers := clear_timers (commandQueue y) (timers y) |},
     Emit disconnected_event :: map closed (commandQueue y)).
Proof.
  unfold handleClose. rewrite rejectAll_spec. destruct y; reflexivity.
Qed.

Lemma clear_timers_none (q t : Map CommandOptions) (k : Z) :
  Map_get k t = None -> Map_get k (clear_timers q t) = None.
Proof.
  revert t. induction q as [|[k' c] q IH]; intros t H; simpl; auto.
  apply IH. destruct (Z.eq_dec k (cmd_id c)) as [-> | Hne].
  - apply Map_get_delete_same.
  - now rewrite Map_get_delete_other.
Qed.

Lemma clear_timers_cleared (q t : Map CommandOptions) (kc : Z * CommandOptions) :
  In kc q -> Map_get (cmd_id (snd kc)) (clear_timers q t) = None.
Proof.
  revert t. induction q as [|[k' c] q IH]; intros t; simpl; [tauto|].
  intros [<- | Hin]; simpl.
  - apply clear_timers_none, Map_get_delete_same.
  - now apply IH.
Qed.

Lemma rejections_closed (q : Map CommandOptions) :
  rejections (map closed q) =
  map (fun kc => (cmd_id (snd kc), ConnectionClosed)) q.
Proof. induction q as [|kc q IH]; simpl; congruence. Qed.

Lemma resolutions_closed (q : Map CommandOptions) :
  resolutions (map closed q) = [].
Proof. induction q as [|kc q IH]; simpl; auto. Qed.

(** C3.  When the transport closes with N commands in the pending
    table, [handleClose] rejects the promise of each of them, once and
    in table order, with the "Connection closed" error, settles
    nothing else, cancels their timeouts, and leaves the table empty. *)
Theorem handleClose_rejects_pending (y : Yeelight) :
  let '(y', e) := handleClose y in
  rejections e =
    map (fun kc => (cmd_id (snd kc), ConnectionClosed)) (commandQueue y) /\
  List.length (rejections e) = List.length (commandQueue y) /\
  resolutions e = [] /\
  (forall kc, In kc (commandQueue y) ->
     Map_get (cmd_id (snd kc)) (timers y') = None) /\
  commandQueue y' = [].
Proof.
  rewrite handleClose_spec. simpl.
  rewrite rejections_closed, resolutions_closed.
  repeat split; auto.
  - now rewrite length_map.
  - intros kc Hin. now apply clear_timers_cleared.
Qed.

Example handleClose_two_pending :
  rejections (snd (handleClose two_pending)) =
    [(1, ConnectionClosed); (2, ConnectionClosed)] /\
  commandQueue (fst (handleClose two_pending)) = [].
Proof. split; reflexivity. Qed.






(** *** Command ids along a run *)

(** [y'] has the id counter of [y] and no pending entry that [y] lacks. *)
Definition no_new_ids (y y' : Yeelight) : Prop :=
  messageId y' = messageId y /\
  incl (commandQueue y') (commandQueue y).

Lemma no_new_ids_refl y : no_new_ids y y.
Proof. split; [reflexivity | apply incl_refl]. Qed.

Lemma no_new_ids_trans y1 y2 y3 :
  no_new_ids y1 y2 -> no_new_ids y2 y3 -> no_new_ids y1 y3.
Proof.
  intros [H1 H2] [H3 H4]. split; [congruence|].
  eapply incl_tran; eauto.
Qed.

Lemma incl_delete (k : Z) (q : Map CommandOptions) :
  incl (Map_delete k q) q.
Proof.
  induction q as [|[k' v] q IH]; simpl; [apply incl_refl|].
  destruct (k =? k').
  - now apply incl_tl.
  - intros x [<- | Hx]; [now left | right; now apply IH].
Qed.

Lemma In_set (k : Z) (v : CommandOptions) (q : Map CommandOptions) x :
  In x (Map_set k v q) -> x = (k, v) \/ In x q.
Proof.
  induction q as [|[k' v'] q IH]; simpl.
  - intuition.
  - destruct (k =? k'); simpl; intuition.
Qed.

Create HintDb ids.
#[local] Hint Resolve no_new_ids_refl incl_delete incl_refl : ids.

Ltac frame_fields y :=
  destruct y; unfold no_new_ids; simpl; auto with ids.

Section Runs.
Variable JSON_parse : jsstring -> option json.

Lemma settle_no_new_ids c response y :
  no_new_ids y (fst (settle c response y)).
Proof.
  unfold settle, entry_reject, entry_resolve.
  repeat match goal with
         | |- context [match ?x with _ => _ end] => destruct x
         end; simpl; frame_fields y.
Qed.

Lemma handleLine_no_new_ids line y :
  no_new_ids y (fst (handleLine JSON_parse line y)).
Proof.
  unfold handleLine.
  repeat match goal with
         | |- context [match ?x with _ => _ end] => destruct x
         end; simpl; auto with ids.
  eapply no_new_ids_trans; [|apply settle_no_new_ids].
  frame_fields y.
Qed.

Lemma handleLine_buffer line y :
  buffer (fst (handleLine JSON_parse line y)) = buffer y.
Proof.
  unfold handleLine, settle, entry_reject, entry_resolve.
  repeat match goal with
         | |- context [match ?x with _ => _ end] => destruct x
         end; simpl; auto; destruct y; reflexivity.
Qed.

Lemma drain_no_new_ids fuel : forall y r,
  drain JSON_parse fuel y = Some r -> no_new_ids y (fst r).
Proof.
  induction fuel as [|fuel IH]; intros y r; simpl.
  - destruct (_ =? -1); [|discriminate].
    intros [= <-]. auto with ids.
  - destruct (_ =? -1); [intros [= <-]; auto with ids|].
    destruct (handleLine _ _ _) as [y2 e1] eqn:Hl.
    destruct (drain _ fuel y2) as [[y3 e2]|] eqn:Hd; [|discriminate].
    intros [= <-]. simpl.
    apply IH in Hd. simpl in Hd.
    eapply no_new_ids_trans; [|exact Hd].
    eapply no_new_ids_trans;
      [|pose proof (handleLine_no_new_ids
                      (slice_to (buffer y) (indexOf [LF] (buffer y)))
                      (with_buffer
                         (slice_from (buffer y)
                            (indexOf [LF] (buffer y) + 1)) y)) as H;
        rewrite Hl in H; exact H].
    frame_fields y.
Qed.

Lemma handleText_no_new_ids text y :
  no_new_ids y (fst (handleText JSON_parse text y)).
Proof.
  unfold handleText.
  destruct (drain _ _ _) as [r|] eqn:Hd.
  - apply drain_no_new_ids in Hd.
    eapply no_new_ids_trans; [|exact Hd]. frame_fields y.
  - simpl. frame_fields y.
Qed.

(** A step that allocates no id leaves the counter and adds no key. *)
Lemma step_no_id o y :
  step_id JSON_parse o y = None -> no_new_ids y (step_state JSON_parse o y).
Proof.
  unfold step_id, step_state. intros H.
  destruct o; simpl in *.
  - unfold connect. destruct (connected y); simpl; frame_fields y.
  - frame_fields y.
  - unfold disconnect. destruct (socket y); simpl; frame_fields y.
  - revert H. unfold sendCommand.
    destruct (_ || _); simpl; [auto with ids | discriminate].
  - revert H. unfold setBrightness, sendCommand.
    destruct (_ || _); simpl; [auto with ids|].
    destruct (_ || _); simpl; [auto with ids | discriminate].
  - revert H. unfold setRGB, sendCommand.
    destruct (_ || _); simpl; [auto with ids | discriminate].
  - apply handleText_no_new_ids.
  - frame_fields y.
  - rewrite handleClose_spec. simpl. split; [reflexivity|].
    intros x [].
  - unfold onCommandTimeout. destruct (Map_get id (timers y)); simpl;
      frame_fields y.
  - frame_fields y.
Qed.

(** A step that allocates an id does it through [sendCommand]. *)
Lemma step_some_id o y id :
  step_id JSON_parse o y = Some id ->
  id = incr (messageId y) /\
  messageId (step_state JSON_parse o y) = id /\
  exists c, cmd_id c = id /\
    incl (commandQueue (step_state JSON_parse o y))
         ((id, c) :: commandQueue y).
Proof.
  assert (Hsend : forall m ps,
    match fst (fst (sendCommand m ps y)) with
    | Pending id0 => Some id0
    | Thrown _ => None
    end = Some id ->
    id = incr (messageId y) /\
    messageId (snd (fst (sendCommand m ps y))) = id /\
    exists c, cmd_id c = id /\
      incl (commandQueue (snd (fst (sendCommand m ps y))))
           ((id, c) :: commandQueue y)).
  { intros m ps. unfold sendCommand.
    destruct (_ || _); simpl; [discriminate|].
    intros [= <-]. split; [reflexivity|]. split; [reflexivity|].
    exists {| cmd_id := incr (messageId y); method := m; params := ps |}.
    split; [reflexivity|].
    intros x Hx. destruct y; simpl in *.
    apply In_set in Hx. destruct Hx; auto. }
  unfold step_id, step_state.
  destruct o; simpl; try discriminate.
  - destruct (sendCommand m ps y) as [[out y'] e] eqn:Hs.
    specialize (Hsend m ps). rewrite Hs in Hsend. simpl in *.
    destruct out; [discriminate | exact Hsend].
  - unfold setBrightness.
    destruct (_ || _); simpl; [discriminate|].
    destruct (sendCommand _ _ y) as [[out y'] e] eqn:Hs.
    specialize (Hsend (js "set_bright")
      [JNum brightness; JStr (js "smooth"); JNum duration]).
    rewrite Hs in Hsend. simpl in *.
    destruct out; [discriminate | exact Hsend].
  - unfold setRGB.
    destruct (sendCommand _ _ y) as [[out y'] e] eqn:Hs.
    specialize (Hsend (js "set_rgb")
      [JNum (pack_rgb red green blue); JStr (js "smooth"); JNum duration]).
    rewrite Hs in Hsend. simpl in *.
    destruct out; [discriminate | exact Hsend].
Qed.

(** Every pending key is an id that was allocated. *)
Definition ids_issued (y : Yeelight) : Prop :=
  forall k, In k (Map_keys (commandQueue y)) -> 1 <= k <= messageId y.

(** [first + 1, first + 2, ..., first + n] *)
Definition count_from (first : Z) (n : nat) : list Z :=
  map (fun i => first + Z.of_nat i) (seq 1 n).

Lemma count_from_S first n :
  count_from first (S n) = (first + 1) :: count_from (first + 1) n.
Proof.
  unfold count_from. simpl. f_equal.
  rewrite <- seq_shift, map_map. apply map_ext. intros i. lia.
Qed.

Lemma run_ids ops : forall y,
  ids_issued y -> 0 <= messageId y ->
  messageId y + Z.of_nat (List.length ops) <= MAX_EXACT ->
  allocated JSON_parse ops y =
    count_from (messageId y) (List.length (allocated JSON_parse ops y)) /\
  never_reuses_pending JSON_parse ops y = true.
Proof.
  induction ops as [|o ops IH]; intros y Hinv Hpos Hmax.
  - split; reflexivity.
  - cbn [allocated never_reuses_pending].
    cbn [List.length] in Hmax.
    destruct (step_id JSON_parse o y) as [id|] eqn:Hid.
    + destruct (step_some_id _ _ _ Hid) as (Hi & Hm & c & Hc & Hk).
      assert (Hid1 : id = messageId y + 1).
      { rewrite Hi. unfold incr.
        destruct (messageId y <? MAX_EXACT) eqn:E; auto.
        apply Z.ltb_ge in E. lia. }
      destruct (IH (step_state JSON_parse o y)) as [IHa IHn].
      * intros k Hin. rewrite Hm.
        apply (incl_map fst Hk) in Hin.
        destruct Hin as [<- | Hin]; [simpl; lia|]. apply Hinv in Hin. lia.
      * lia.
      * lia.
      * split.
        -- cbn [List.length]. rewrite count_from_S.
           rewrite <- Hid1. f_equal.
           rewrite Hm in IHa. exact IHa.
        -- rewrite IHn, andb_true_r.
           destruct (Map_has id (commandQueue y)) eqn:Hh; auto.
           apply Map_has_keys, Hinv in Hh. lia.
    + destruct (step_no_id _ _ Hid) as [Hm Hk].
      destruct (IH (step_state JSON_parse o y)) as [IHa IHn].
      * intros k Hin. rewrite Hm. apply Hinv.
        apply (incl_map fst Hk). exact Hin.
      * lia.
      * lia.
      * rewrite Hm in IHa. split; [exact IHa | now rewrite IHn].
Qed.

(** Every entry of the pending table sits under the id of its command. *)
Definition well_keyed (y : Yeelight) : Prop :=
  Forall (fun kc => cmd_id (snd kc) = fst kc) (commandQueue y).

Lemma step_well_keyed o y :
  well_keyed y -> well_keyed (step_state JSON_parse o y).
Proof.
  unfold well_keyed. rewrite !Forall_forall. intros Hy kc Hin.
  destruct (step_id JSON_parse o y) as [id|] eqn:Hid.
  - destruct (step_some_id _ _ _ Hid) as (_ & _ & c & Hc & Hk).
    apply Hk in Hin. destruct Hin as [<- | Hin]; auto.
  - destruct (step_no_id _ _ Hid) as [_ Hk]. auto.
Qed.

Lemma run_well_keyed ops : forall y,
  well_keyed y -> well_keyed (run JSON_parse ops y).
Proof.
  induction ops as [|o ops IH]; intros y Hy; simpl; auto.
  apply IH. now apply step_well_keyed.
Qed.

(** In a state that a session object can reach, the rejections made
    by the close handler are those of the keys of the pending table. *)
Lemma handleClose_rejects_keys ops :
  let y := run JSON_parse ops new_Yeelight in
  rejections (snd (handleClose y)) =
  map (fun kc => (fst kc, ConnectionClosed)) (commandQueue y).
Proof.
  cbv zeta. rewrite handleClose_spec. cbn [snd rejections flat_map app].
  rewrite rejections_closed.
  assert (H : well_keyed (run JSON_parse ops new_Yeelight))
    by (apply run_well_keyed; constructor).
  unfold well_keyed in H. rewrite Forall_forall in H.
  apply map_ext_in. intros kc Hin. now rewrite H.
Qed.

End Runs.

(** The reading of C2: in every connection of a session the ids are
    1, 2, 3, ... *)
Definition counts_from_one (ids : list Z) : Prop :=
  ids = map Z.of_nat (seq 1 (List.length ids)).

(** A session that sends one command, loses the connection, connects
    again and sends another one. *)
Definition reconnect_run : list op :=
  [Connect; SocketConnect; Send (js "toggle") []; SocketClose;
   Connect; SocketConnect; Send (js "toggle") []].

(** C2 as stated fails: the counter belongs to the object and is not
    reset when it connects again, so the second connection of a
    session starts at the id after the last one of the first. *)
Lemma ids_per_connection_counterexample :
  snd (allocated_by_connection JsonLite.parse reconnect_run new_Yeelight) =
    [[1]; [2]] /\
  ~ Forall counts_from_one
      (snd (allocated_by_connection JsonLite.parse reconnect_run new_Yeelight)).
Proof.
  split; [reflexivity|].
  intros H. inversion H as [|? ? _ H2]; subst.
  inversion H2 as [|? ? H3 _]; subst.
  unfold counts_from_one in H3. simpl in H3. discriminate.
Qed.

(** C2, amended.  Over the whole life of a session object, across all
    its connections and whatever else happens to it in between, the
    ids allocated by the successive sends are 1, 2, 3, ... in this
    order, and no send allocates an id that is a key of the pending
    table at that moment; this holds as long as the run is shorter
    than 2^53 steps, the range in which incrementing the counter is
    exact. *)
Theorem ids_count_up (JSON_parse : jsstring -> option json) (ops : list op) :
  Z.of_nat (List.length ops) < MAX_EXACT ->
  allocated JSON_parse ops new_Yeelight =
    map Z.of_nat (seq 1 (List.length (allocated JSON_parse ops new_Yeelight))) /\
  never_reuses_pending JSON_parse ops new_Yeelight = true.
Proof.
  intros Hlen.
  destruct (run_ids JSON_parse ops new_Yeelight) as [Ha Hn].
  - intros k [].
  - simpl. lia.
  - simpl. lia.
  - split; [|exact Hn].
    rewrite Ha at 1. unfold count_from. simpl. apply map_ext.
    intros i. lia.
Qed.

Lemma ids_count_up_witness :
  allocated JsonLite.parse reconnect_run new_Yeelight =
    map Z.of_nat
      (seq 1 (List.length (allocated JsonLite.parse reconnect_run new_Yeelight))) /\
  never_reuses_pending JsonLite.parse reconnect_run new_Yeelight = true.
Proof.
  apply (ids_count_up JsonLite.parse reconnect_run).
  vm_compute. reflexivity.
Defined.

Example reconnect_run_ids :
  allocated JsonLite.parse reconnect_run new_Yeelight = [1; 2].
Proof. reflexivity. Qed.

(** At 2^53 the counter stops: the next id repeats the last one. *)
Example incr_saturates : incr MAX_EXACT = MAX_EXACT.
Proof. reflexivity. Qed.

End SessionProps.

(** ** Properties of the line framer *)

Module FramerProps.
Import JS Session.

(** *** The loop, line by line *)

(** The first complete line of [s] and what follows its terminator. *)
Fixpoint cut (s : jsstring) : option (jsstring * jsstring) :=
  match s with
  | [] => None
  | c :: s' =>
      if LF =? c then Some ([], s')
      else match cut s' with
           | Some (l, r) => Some (c :: l, r)
           | None => None
           end
  end.

(** All complete lines of [s], and the unterminated rest. *)
Fixpoint split_lines (s : jsstring) : list jsstring * jsstring :=
  match s with
  | [] => ([], [])
  | c :: s' =>
      let '(ls, r) := split_lines s' in
      if LF =? c then ([] :: ls, r)
      else match ls with
           | [] => ([], c :: r)
           | l :: ls' => ((c :: l) :: ls', r)
           end
  end.

Lemma indexOf_cut (s : jsstring) :
  match cut s with
  | None => indexOf [LF] s = -1
  | Some (l, r) =>
      indexOf [LF] s = Z.of_nat (List.length l) /\
      slice_to s (indexOf [LF] s) = l /\
      slice_from s (indexOf [LF] s + 1) = r
  end.
Proof.
  induction s as [|c s IH].
  - reflexivity.
  - cbn [cut indexOf startsWith].
    destruct (LF =? c) eqn:E; cbn [andb].
    + repeat split.
    + destruct (cut s) as [[l r]|].
      * destruct IH as (Hi & Hl & Hr).
        assert (Hlt : (indexOf [LF] s <? 0) = false)
          by (apply Z.ltb_ge; lia).
        rewrite Hlt. unfold slice_to, slice_from in *.
        rewrite Hi in *. cbn [List.length].
        replace (Z.to_nat (Z.of_nat (List.length l) + 1))
          with (S (List.length l)) by lia.
        replace (Z.to_nat (Z.of_nat (List.length l) + 1 + 1))
          with (S (S (List.length l))) by lia.
        replace (Z.to_nat (Z.of_nat (List.length l) + 1))
          with (S (List.length l)) in Hr by lia.
        rewrite Nat2Z.id in Hl.
        repeat split.
        -- lia.
        -- cbn [firstn]. now rewrite Hl.
        -- cbn [skipn]. exact Hr.
      * rewrite IH. reflexivity.
Qed.

Lemma cut_shorter (s l r : jsstring) :
  cut s = Some (l, r) -> (List.length r < List.length s)%nat.
Proof.
  revert l. induction s as [|c s IH]; intros l; cbn [cut]; [discriminate|].
  destruct (LF =? c).
  - intros H. inversion H; subst. cbn [List.length]. lia.
  - destruct (cut s) as [[l' r']|]; [|discriminate].
    intros H. inversion H; subst. specialize (IH l' eq_refl).
    cbn [List.length]. lia.
Qed.

Lemma split_lines_cut (s : jsstring) :
  split_lines s =
  match cut s with
  | None => ([], s)
  | Some (l, r) => (l :: fst (split_lines r), snd (split_lines r))
  end.
Proof.
  induction s as [|c s IH]; [reflexivity|].
  cbn [split_lines cut].
  destruct (LF =? c); [now destruct (split_lines s)|].
  rewrite IH.
  destruct (cut s) as [[l r]|]; reflexivity.
Qed.

Lemma split_lines_app (s t : jsstring) :
  split_lines (s ++ t) =
  (fst (split_lines s) ++ fst (split_lines (snd (split_lines s) ++ t)),
   snd (split_lines (snd (split_lines s) ++ t))).
Proof.
  induction s as [|c s IH].
  - simpl. now destruct (split_lines t).
  - cbn [app split_lines]. rewrite IH.
    destruct (split_lines s) as [l1 r1]. cbn [fst snd].
    destruct (LF =? c) eqn:E.
    + reflexivity.
    + destruct l1 as [|l l1]; cbn [fst snd app].
      * cbn [split_lines]. rewrite E.
        destruct (split_lines (r1 ++ t)) as [l2 r2]. cbn [fst snd].
        now destruct l2.
      * reflexivity.
Qed.

Section Framer.
Variable JSON_parse : jsstring -> option json.

(** The loop body run on each line of a list, in order. *)
Fixpoint feed_lines (ls : list jsstring) (y : Yeelight) : Yeelight * list effect :=
  match ls with
  | [] => (y, [])
  | l :: ls' =>
      let '(y1, e1) := handleLine JSON_parse l y in
      let '(y2, e2) := feed_lines ls' y1 in
      (y2, e1 ++ e2)
  end.

(** The loop body neither reads nor writes the buffer. *)
Lemma handleLine_with_buffer (line b : jsstring) (y : Yeelight) :
  handleLine JSON_parse line (with_buffer b y) =
  (with_buffer b (fst (handleLine JSON_parse line y)),
   snd (handleLine JSON_parse line y)).
Proof.
  unfold handleLine, settle, entry_reject, entry_resolve.
  destruct y as [s n c q b0 t]. cbn [commandQueue with_buffer].
  repeat match goal with
         | |- context [match ?x with _ => _ end] => destruct x
         end; reflexivity.
Qed.

Lemma feed_lines_with_buffer (ls : list jsstring) (b : jsstring) : forall y,
  feed_lines ls (with_buffer b y) =
  (with_buffer b (fst (feed_lines ls y)), snd (feed_lines ls y)).
Proof.
  induction ls as [|l ls IH]; intros y; simpl; [reflexivity|].
  rewrite handleLine_with_buffer.
  destruct (handleLine JSON_parse l y) as [y1 e1]. cbn [fst snd].
  rewrite IH. destruct (feed_lines ls y1) as [y2 e2]. reflexivity.
Qed.

Lemma feed_lines_app (l1 l2 : list jsstring) : forall y,
  feed_lines (l1 ++ l2) y =
  (fst (feed_lines l2 (fst (feed_lines l1 y))),
   snd (feed_lines l1 y) ++ snd (feed_lines l2 (fst (feed_lines l1 y)))).
Proof.
  induction l1 as [|l l1 IH]; intros y; simpl.
  - now destruct (feed_lines l2 y).
  - destruct (handleLine JSON_parse l y) as [y1 e1].
    rewrite IH. destruct (feed_lines l1 y1) as [y2 e2]. cbn [fst snd].
    now rewrite app_assoc.
Qed.

Lemma with_buffer_twice (a b : jsstring) (y : Yeelight) :
  with_buffer a (with_buffer b y) = with_buffer a y.
Proof. destruct y; reflexivity. Qed.

Lemma with_buffer_same (y : Yeelight) : with_buffer (buffer y) y = y.
Proof. destruct y; reflexivity. Qed.

(** The loop reaches its exit within as many iterations as the buffer
    has code units, and it has then run the body on every complete
    line of the buffer and kept the unterminated rest. *)
Lemma drain_enough (fuel : nat) : forall y,
  (List.length (buffer y) <= fuel)%nat ->
  drain JSON_parse fuel y =
  Some (feed_lines (fst (split_lines (buffer y)))
          (with_buffer (snd (split_lines (buffer y))) y)).
Proof.
  induction fuel as [|fuel IH]; intros y Hlen.
  - destruct (buffer y) eqn:Hb; [|simpl in Hlen; lia].
    simpl. rewrite Hb. simpl. rewrite <- Hb. now rewrite with_buffer_same.
  - cbn [drain]. pose proof (indexOf_cut (buffer y)) as Hc.
    rewrite (split_lines_cut (buffer y)).
    destruct (cut (buffer y)) as [[l r]|] eqn:Hcut.
    + destruct Hc as (Hi & Hl & Hr).
      assert (Hne : (indexOf [LF] (buffer y) =? -1) = false)
        by (apply Z.eqb_neq; lia).
      rewrite Hne, Hl, Hr.
      rewrite handleLine_with_buffer.
      destruct (handleLine JSON_parse l y) as [y1 e1] eqn:Hh. cbn [fst snd].
      rewrite IH.
      2:{ destruct y1; simpl. apply cut_shorter in Hcut. lia. }
      replace (buffer (with_buffer r y1)) with r by (destruct y1; reflexivity).
      rewrite with_buffer_twice.
      cbn [feed_lines]. rewrite handleLine_with_buffer, Hh. cbn [fst snd].
      rewrite feed_lines_with_buffer.
      destruct (feed_lines (fst (split_lines r)) y1) as [y2 e2].
      reflexivity.
    + rewrite Hc. simpl. now rewrite with_buffer_same.
Qed.

(** [handleText] in closed form. *)
Lemma handleText_lines (text : jsstring) (y : Yeelight) :
  handleText JSON_parse text y =
  feed_lines (fst (split_lines (buffer y ++ text)))
    (with_buffer (snd (split_lines (buffer y ++ text))) y).
Proof.
  unfold handleText. rewrite drain_enough.
  - replace (buffer (with_buffer (buffer y ++ text) y)) with (buffer y ++ text)
      by (destruct y; reflexivity).
    now rewrite with_buffer_twice.
  - apply Nat.le_refl.
Qed.

Lemma feed_lines_buffer (ls : list jsstring) : forall y,
  buffer (fst (feed_lines ls y)) = buffer y.
Proof.
  induction ls as [|l ls IH]; intros y; simpl; [reflexivity|].
  pose proof (SessionProps.handleLine_buffer JSON_parse l y) as Hb.
  destruct (handleLine JSON_parse l y) as [y1 e1].
  specialize (IH y1). destruct (feed_lines ls y1) as [y2 e2].
  simpl in *. congruence.
Qed.

(** Two deliveries of text are one delivery of their concatenation. *)
Lemma handleText_app (a b : jsstring) (y : Yeelight) :
  handleText JSON_parse (a ++ b) y =
  (fst (handleText JSON_parse b (fst (handleText JSON_parse a y))),
   snd (handleText JSON_parse a y) ++
   snd (handleText JSON_parse b (fst (handleText JSON_parse a y)))).
Proof.
  rewrite !handleText_lines.
  rewrite app_assoc, split_lines_app.
  destruct (split_lines (buffer y ++ a)) as [l1 r1]. cbn [fst snd].
  rewrite feed_lines_buffer.
  replace (buffer (with_buffer r1 y)) with r1 by (destruct y; reflexivity).
  destruct (split_lines (r1 ++ b)) as [l2 r2]. cbn [fst snd].
  rewrite feed_lines_app.
  rewrite (feed_lines_with_buffer l1 r1 y). cbn [fst snd].
  rewrite (feed_lines_with_buffer l2 r2), (feed_lines_with_buffer l2 r1).
  cbn [fst snd]. rewrite with_buffer_twice.
  rewrite (feed_lines_with_buffer l1 r2 y). cbn [fst snd].
  rewrite (feed_lines_with_buffer l2 r2). reflexivity.
Qed.

(** *** Deliveries that end between two characters *)

Lemma utf8_decode_app (a b : Buffer) : forall st,
  utf8_after st a = Start ->
  utf8_decode st (a ++ b) = utf8_decode st a ++ utf8_decode Start b.
Proof.
  induction a as [|x a IH]; intros st; cbn [utf8_after app utf8_decode].
  - intros ->. reflexivity.
  - destruct (utf8_step st x) as [out st']. cbn [snd]. intros H.
    rewrite (IH st' H). now rewrite app_assoc.
Qed.

(** A delivery that does not end inside a multi-byte character. *)
Definition whole_characters (data : Buffer) : Prop :=
  utf8_after Start data = Start.

Lemma handleData_app (a b : Buffer) (y : Yeelight) :
  whole_characters a ->
  handleData JSON_parse (a ++ b) y =
  (fst (handleData JSON_parse b (fst (handleData JSON_parse a y))),
   snd (handleData JSON_parse a y) ++
   snd (handleData JSON_parse b (fst (handleData JSON_parse a y)))).
Proof.
  intros Ha. unfold handleData, toString.
  rewrite (utf8_decode_app a b Start Ha). apply handleText_app.
Qed.

(** Deliveries cut between characters, at any other place (inside a
    line, between lines, after several lines), give the state and
    the effects of the one delivery of all the bytes. *)
Lemma deliver_whole_characters (rest : list Buffer) : forall data y,
  Forall whole_characters (data :: rest) ->
  deliver JSON_parse (data :: rest) y =
  handleData JSON_parse (data ++ List.concat rest) y.
Proof.
  induction rest as [|d2 rest IH]; intros data y Hall.
  - cbn [deliver List.concat]. rewrite app_nil_r.
    destruct (handleData JSON_parse data y) as [y1 e1].
    now rewrite app_nil_r.
  - inversion Hall as [|? ? Hd Hrest]; subst.
    change (deliver JSON_parse (data :: d2 :: rest) y)
      with (let '(y1, e1) := handleData JSON_parse data y in
            let '(y2, e2) := deliver JSON_parse (d2 :: rest) y1 in
            (y2, e1 ++ e2)).
    cbn [List.concat]. rewrite (handleData_app data (d2 ++ List.concat rest) y Hd).
    destruct (handleData JSON_parse data y) as [y1 e1]. cbn [fst snd].
    rewrite (IH d2 y1 Hrest).
    now destruct (handleData JSON_parse (d2 ++ List.concat rest) y1).
Qed.

(** *** Lines that are not messages *)

(** The decoded value is neither a notification (a "method" key) nor
    a response (an "id" key). *)
Definition neither_shape (v : json) : Prop :=
  has_key (js "method") v <> inr true /\ has_key (js "id") v <> inr true.

(** A complete line that fails to decode, or decodes to neither shape. *)
Definition invalid_line (line : jsstring) : Prop :=
  match JSON_parse line with
  | None => True
  | Some v => neither_shape v
  end.

(** The line is reported to the diagnostic sink. *)
Definition reported (e : list effect) : Prop :=
  exists x, In (LogError x) e.

(** What the handler reports for an invalid line: the exception it
    caught, if there was one. *)
Definition diagnostic (line : jsstring) : list effect :=
  match JSON_parse line with
  | None => [LogError SyntaxError]
  | Some v =>
      match has_key (js "method") v with
      | inl e => [LogError e]
      | inr _ => []
      end
  end.

Lemma handleLine_invalid (line : jsstring) (y : Yeelight) :
  invalid_line line ->
  handleLine JSON_parse line y = (y, diagnostic line).
Proof.
  unfold invalid_line, diagnostic, handleLine, neither_shape.
  destruct (JSON_parse line) as [v|]; [|reflexivity].
  intros [Hm Hi].
  destruct v; cbn [has_key] in *; try reflexivity.
  destruct (assoc (js "method") props); [congruence|].
  destruct (assoc (js "id") props); [congruence|]. reflexivity.
Qed.

Lemma cut_unterminated (p rest : jsstring) :
  indexOf [LF] p = -1 -> cut (p ++ LF :: rest) = Some (p, rest).
Proof.
  intros Hp. pose proof (indexOf_cut p) as Hc.
  destruct (cut p) as [[l r]|] eqn:Hcut; [lia|]. clear Hp Hc.
  induction p as [|c p IH]; cbn [app cut] in *.
  - reflexivity.
  - destruct (LF =? c); [discriminate|].
    destruct (cut p) as [[l r]|]; [discriminate|].
    now rewrite IH.
Qed.

End Framer.

(** *** Concrete deliveries *)

(** A notification whose text holds the two-byte character U+00E9. *)
Definition name_notification : Buffer :=
  jsq "{'method':'props','params':{'name':'caf" ++ [0xC3; 0xA9]
    ++ jsq "'}}" ++ [CR; LF].

(** The same bytes in two deliveries, cut between the two bytes of
    that character. *)
Definition name_notification_1 : Buffer :=
  jsq "{'method':'props','params':{'name':'caf" ++ [0xC3].
Definition name_notification_2 : Buffer :=
  [0xA9] ++ jsq "'}}" ++ [CR; LF].

Definition props_name (name : jsstring) : json :=
  JObj [(js "method", JStr (js "props"));
        (js "params", JObj [(js "name", JStr name)])].

(** C5 at a failing input.  One notification delivered whole is
    emitted with the name it carries; the same bytes delivered in two
    chunks that cut the character U+00E9 in half are decoded chunk by
    chunk, each half becomes U+FFFD, and the notification is emitted
    with a different name. *)
Theorem handleData_split_character :
  let y := SessionProps.connected_session 0 in
  name_notification_1 ++ name_notification_2 = name_notification /\
  snd (handleData JsonLite.parse name_notification y) =
    [Emit (notification_event (props_name (js "caf" ++ [0xE9])))] /\
  snd (deliver JsonLite.parse [name_notification_1; name_notification_2] y) =
    [Emit (notification_event (props_name (js "caf" ++ [0xFFFD; 0xFFFD])))] /\
  snd (deliver JsonLite.parse [name_notification_1; name_notification_2] y) <>
  snd (handleData JsonLite.parse name_notification y).
Proof.
  cbv zeta.
  assert (H1 : snd (handleData JsonLite.parse name_notification
                      (SessionProps.connected_session 0)) =
               [Emit (notification_event (props_name (js "caf" ++ [0xE9])))])
    by (vm_compute; reflexivity).
  assert (H2 : snd (deliver JsonLite.parse
                      [name_notification_1; name_notification_2]
                      (SessionProps.connected_session 0)) =
               [Emit (notification_event
                        (props_name (js "caf" ++ [0xFFFD; 0xFFFD])))])
    by (vm_compute; reflexivity).
  repeat split; auto.
  rewrite H1, H2. vm_compute. intros H. discriminate H.
Qed.

(** An object that is neither a notification nor a response. *)
Definition stray_line : jsstring := jsq "{'foo':1}".

(** C6 as stated fails: a line that decodes to an object with neither
    key is dropped without a word to the diagnostic sink. *)
Lemma unreported_line_counterexample :
  invalid_line JsonLite.parse stray_line /\
  handleLine JsonLite.parse stray_line (SessionProps.connected_session 0) =
    (SessionProps.connected_session 0, []) /\
  ~ reported (snd (handleLine JsonLite.parse stray_line
                     (SessionProps.connected_session 0))).
Proof.
  split; [|split].
  - vm_compute. split; intros H; discriminate H.
  - vm_compute. reflexivity.
  - intros [x Hx]. vm_compute in Hx. exact Hx.
Qed.

(** C6, amended.  A complete line (what the buffer held, plus the
    bytes up to the next terminator) that fails to decode, or decodes
    to a value with neither a "method" nor an "id" key, is discarded
    and leaves the object as it was: the connection stays up and the
    lines after it, in this and in later deliveries, are handled as
    if it had not been sent.  It is reported to the diagnostic sink
    when decoding throws or the value is a primitive; an object or an
    array of neither shape is dropped without a report. *)
Theorem invalid_line_discarded
  (JSON_parse : jsstring -> option json)
  (tail rest : jsstring) (y : Yeelight) :
  indexOf [LF] (buffer y ++ tail) = -1 ->
  invalid_line JSON_parse (buffer y ++ tail) ->
  let line := buffer y ++ tail in
  let after := handleText JSON_parse rest (with_buffer [] y) in
  handleLine JSON_parse line y = (y, diagnostic JSON_parse line) /\
  handleText JSON_parse (tail ++ LF :: rest) y =
    (fst after, diagnostic JSON_parse line ++ snd after) /\
  (JSON_parse line = None ->
     diagnostic JSON_parse line = [LogError SyntaxError]) /\
  (forall v, JSON_parse line = Some v ->
     diagnostic JSON_parse line =
       match v with
       | JObj _ | JArr _ => []
       | _ => [LogError TypeError]
       end).
Proof.
  intros Hlf Hinv line after.
  pose proof (handleLine_invalid JSON_parse line y Hinv) as Hh.
  split; [exact Hh|]. split; [|split].
  - subst after. rewrite !handleText_lines.
    replace (buffer (with_buffer [] y)) with (@nil Z) by (destruct y; reflexivity).
    rewrite app_assoc, split_lines_cut.
    rewrite (cut_unterminated (buffer y ++ tail) rest Hlf).
    cbn [fst snd feed_lines app].
    rewrite handleLine_with_buffer. fold line. rewrite Hh. cbn [fst snd].
    rewrite with_buffer_twice.
    now destruct (feed_lines JSON_parse (fst (split_lines rest))
                    (with_buffer (snd (split_lines rest)) y)).
  - intros Hn. unfold diagnostic. now rewrite Hn.
  - intros v Hv. unfold diagnostic. rewrite Hv.
    destruct v; reflexivity.
Qed.

(** A garbled line, then a stray object, then a notification, with
    the first line split over the buffer and the delivery. *)
Definition power_notification : jsstring :=
  jsq "{'method':'props','params':{'power':'on'}}" ++ [CR; LF].

Lemma invalid_line_discarded_witness :
  let y := with_buffer (jsq "{'id':1,") (SessionProps.connected_session 3) in
  let tail := jsq "'result'" in
  let line := buffer y ++ tail in
  let after := handleText JsonLite.parse power_notification (with_buffer [] y) in
  handleLine JsonLite.parse line y = (y, diagnostic JsonLite.parse line) /\
  handleText JsonLite.parse (tail ++ LF :: power_notification) y =
    (fst after, diagnostic JsonLite.parse line ++ snd after) /\
  (JsonLite.parse line = None ->
     diagnostic JsonLite.parse line = [LogError SyntaxError]) /\
  (forall v, JsonLite.parse line = Some v ->
     diagnostic JsonLite.parse line =
       match v with
       | JObj _ | JArr _ => []
       | _ => [LogError TypeError]
       end).
Proof.
  apply (invalid_line_discarded JsonLite.parse (jsq "'result'")
           power_notification
           (with_buffer (jsq "{'id':1,") (SessionProps.connected_session 3))).
  - vm_compute. reflexivity.
  - vm_compute. exact I.
Defined.

Example garbled_then_notification :
  snd (handleText JsonLite.parse
         (jsq "'result'" ++ LF :: stray_line ++ LF :: power_notification)
         (with_buffer (jsq "{'id':1,") (SessionProps.connected_session 3))) =
  [LogError SyntaxError;
   Emit (notification_event
           (JObj [(js "method", JStr (js "props"));
                  (js "params", JObj [(js "power", JStr (js "on"))])]))].
Proof. vm_compute. reflexivity. Qed.

End FramerProps.

(** ** Properties of the discovery scanner *)

Module DiscoveryProps.
Import JS Discovery.

Lemma streqb_eq (a b : jsstring) : streqb a b = true <-> a = b.
Proof.
  revert b. induction a as [|x a IH]; intros [|y b]; simpl;
    try (split; congruence).
  rewrite andb_true_iff, Z.eqb_eq, IH. split.
  - intros [-> ->]. reflexivity.
  - intros [= -> ->]. auto.
Qed.

Lemma streqb_refl (a : jsstring) : streqb a a = true.
Proof. now apply streqb_eq. Qed.

Lemma streqb_neq (a b : jsstring) : a <> b -> streqb a b = false.
Proof.
  intros H. destruct (streqb a b) eqn:E; auto.
  apply streqb_eq in E. contradiction.
Qed.

(** *** The result set as a map *)

Lemma devices_get_set (k k' : jsstring) (d : DeviceInfo) (m : DeviceMap) :
  devices_get k (devices_set k' d m) =
  if streqb k k' then Some d else devices_get k m.
Proof.
  unfold devices_get. induction m as [|[k0 d0] m IH]; simpl.
  - reflexivity.
  - destruct (streqb k' k0) eqn:E; simpl.
    + apply streqb_eq in E. subst k0.
      destruct (streqb k k'); reflexivity.
    + rewrite IH. destruct (streqb k k0) eqn:E0; auto.
      apply streqb_eq in E0. subst k0.
      destruct (streqb k k') eqn:E1; auto.
      apply streqb_eq in E1. subst k'. now rewrite streqb_refl in E.
Qed.

(** The record a datagram stands for, when it is a device response
    that carries a location. *)
Definition live_record (msg : Buffer) : option DeviceInfo :=
  let response := toString msg in
  if includes (js "yeelight") response then
    match location_parts response with
    | Some (i, p) => Some (device_of response i p)
    | None => None
    end
  else None.

(** The record of the first response for [k] among [msgs]. *)
Fixpoint first_live (k : jsstring) (msgs : list Buffer) : option DeviceInfo :=
  match msgs with
  | [] => None
  | msg :: msgs' =>
      match live_record msg with
      | Some d => if streqb k (ip d) then Some d else first_live k msgs'
      | None => first_live k msgs'
      end
  end.

(** The last record for [k] in the cache file. *)
Definition last_cached (k : jsstring) (cached : list DeviceInfo)
  : option DeviceInfo :=
  find (fun d => streqb k (ip d)) (rev cached).

(** A present entry shadows the absent one. *)
Definition or_else {A} (a b : option A) : option A :=
  match a with Some x => Some x | None => b end.

Lemma onMessage_get (k : jsstring) (msg : Buffer) (m : DeviceMap) :
  devices_get k (onMessage msg m) =
  or_else (devices_get k m)
    (match live_record msg with
     | Some d => if streqb k (ip d) then Some d else None
     | None => None
     end).
Proof.
  unfold onMessage, live_record, parseResponse. cbv zeta.
  destruct (includes _ _); [|now destruct (devices_get k m)].
  destruct (location_parts _) as [[i p]|]; [|now destruct (devices_get k m)].
  cbn [ip device_of].
  unfold devices_has.
  destruct (devices_get i m) as [d0|] eqn:Hi; cbn [negb].
  - destruct (devices_get k m) eqn:Hk; [reflexivity|]. simpl.
    destruct (streqb k i) eqn:E; [|reflexivity].
    apply streqb_eq in E. congruence.
  - rewrite devices_get_set.
    destruct (streqb k i) eqn:E.
    + apply streqb_eq in E. subst k. now rewrite Hi.
    + now destruct (devices_get k m).
Qed.

Lemma receive_get (k : jsstring) (msgs : list Buffer) : forall m,
  devices_get k (receive msgs m) =
  or_else (devices_get k m) (first_live k msgs).
Proof.
  induction msgs as [|msg msgs IH]; intros m; cbn [receive first_live].
  - now destruct (devices_get k m).
  - rewrite IH, onMessage_get.
    destruct (devices_get k m); [reflexivity|]. simpl.
    destruct (live_record msg) as [d|]; [|reflexivity].
    now destruct (streqb k (ip d)).
Qed.

Lemma find_snoc {A} (f : A -> bool) (l : list A) (x : A) :
  find f (l ++ [x]) = or_else (find f l) (if f x then Some x else None).
Proof.
  induction l as [|a l IH]; simpl.
  - now destruct (f x).
  - now destruct (f a).
Qed.

Lemma seed_get (k : jsstring) (cached : list DeviceInfo) : forall m,
  devices_get k (seed cached m) =
  or_else (last_cached k cached) (devices_get k m).
Proof.
  unfold last_cached.
  induction cached as [|d cached IH]; intros m; cbn [seed rev].
  - reflexivity.
  - rewrite IH, find_snoc, devices_get_set.
    destruct (find _ (rev cached)); [reflexivity|]. simpl.
    now destruct (streqb k (ip d)).
Qed.

(** *** The result set as a list *)

(** Every key is the ip of its record, and no key occurs twice. *)
Definition keyed_by_ip (m : DeviceMap) : Prop :=
  Forall (fun kd => fst kd = ip (snd kd)) m /\ NoDup (map fst m).

Lemma devices_get_In (k : jsstring) (d : DeviceInfo) (m : DeviceMap) :
  devices_get k m = Some d -> In (k, d) m.
Proof.
  unfold devices_get. induction m as [|[k0 d0] m IH]; simpl; [discriminate|].
  destruct (streqb k k0) eqn:E.
  - apply streqb_eq in E. intros [= ->]. subst. auto.
  - auto.
Qed.


Lemma In_devices_get (k : jsstring) (d : DeviceInfo) (m : DeviceMap) :
  NoDup (map fst m) -> In (k, d) m -> devices_get k m = Some d.
Proof.
  unfold devices_get. induction m as [|[k0 d0] m IH]; simpl; [tauto|].
  intros Hnd [[= -> ->] | Hin].
  - now rewrite streqb_refl.
  - inversion Hnd as [|? ? Hnotin Hnd']; subst.
    destruct (streqb k k0) eqn:E; [|auto].
    apply streqb_eq in E. subst k0.
    exfalso. apply Hnotin. apply (in_map fst) in Hin. exact Hin.
Qed.


Lemma devices_set_keyed (d : DeviceInfo) (m : DeviceMap) :
  keyed_by_ip m -> keyed_by_ip (devices_set (ip d) d m).
Proof.
  unfold keyed_by_ip. induction m as [|[k0 d0] m IH]; cbn [devices_set].
  - intros _. split; repeat constructor. simpl. tauto.
  - cbn [map fst]. rewrite Forall_cons_iff, NoDup_cons_iff.
    intros [[Hk0 Hk] [Hnotin Hnd]].
    destruct (streqb (ip d) k0) eqn:E.
    + apply streqb_eq in E.
      cbn [map fst]. rewrite Forall_cons_iff, NoDup_cons_iff.
      rewrite E. auto.
    + destruct (IH (conj Hk Hnd)) as [IH1 IH2].
      cbn [map fst]. rewrite Forall_cons_iff, NoDup_cons_iff.
      repeat split; auto.
      intros Hin. apply in_map_iff in Hin. destruct Hin as [[k1 d1] [Hk1 Hin]].
      cbn [fst] in Hk1. subst k1.
      assert (Hg : devices_get k0 (devices_set (ip d) d m) = Some d1)
        by (apply In_devices_get; auto).
      rewrite devices_get_set in Hg.
      assert (E' : streqb k0 (ip d) = false).
      { apply streqb_neq. intros ->. now rewrite streqb_refl in E. }
      rewrite E' in Hg. apply devices_get_In in Hg.
      apply Hnotin. apply (in_map fst) in Hg. exact Hg.
Qed.

Lemma seed_keyed (cached : list DeviceInfo) : forall m,
  keyed_by_ip m -> keyed_by_ip (seed cached m).
Proof.
  induction cached as [|d cached IH]; intros m Hm; simpl; auto.
  apply IH. now apply devices_set_keyed.
Qed.

Lemma onMessage_keyed (msg : Buffer) (m : DeviceMap) :
  keyed_by_ip m -> keyed_by_ip (onMessage msg m).
Proof.
  intros Hm. unfold onMessage, parseResponse. cbv zeta.
  destruct (includes _ _); auto.
  destruct (location_parts _) as [[i p]|]; auto.
  destruct (negb _); auto.
  apply (devices_set_keyed (device_of (toString msg) i p) m Hm).
Qed.

Lemma receive_keyed (msgs : list Buffer) : forall m,
  keyed_by_ip m -> keyed_by_ip (receive msgs m).
Proof.
  induction msgs as [|msg msgs IH]; intros m Hm; simpl; auto.
  apply IH. now apply onMessage_keyed.
Qed.

Lemma discovered_keyed (useCache : bool) (f : store) (msgs : list Buffer) :
  keyed_by_ip (discovered useCache f msgs).
Proof.
  unfold discovered. apply receive_keyed.
  assert (H0 : keyed_by_ip []) by (split; constructor).
  destruct useCache; auto. now apply seed_keyed.
Qed.

Lemma values_keyed (d : DeviceInfo) (m : DeviceMap) :
  keyed_by_ip m ->
  (In d (devices_values m) <-> devices_get (ip d) m = Some d).
Proof.
  intros [Hk Hnd]. unfold devices_values. split.
  - intros Hin. apply in_map_iff in Hin. destruct Hin as [[k d'] [Hd Hin]].
    simpl in Hd. subst d'.
    rewrite Forall_forall in Hk. pose proof (Hk _ Hin) as Hkey.
    simpl in Hkey. subst k. now apply In_devices_get.
  - intros Hg. apply devices_get_In in Hg.
    apply in_map_iff. exists (ip d, d). auto.
Qed.

(** *** Cache against live responses *)

(** A bulb as the cache file remembers it. *)
Definition cached_bulb : DeviceInfo :=
  {| ip := js "192.168.1.239"; port := Some 55443;
     dev_id := Some (js "0x000000000015243f");
     model := Some (js "color"); name := Some (js "desk");
     firmware := Some (js "18");
     support := Some [js "get_prop"; js "set_power"];
     power := Some (js "off") |}.

(** The answer of the same bulb to the probe of this scan: newer
    firmware, and the light is on. *)
Definition bulb_response : Buffer :=
  js "HTTP/1.1 200 OK" ++ [CR; LF]
  ++ js "Cache-Control: max-age=3600" ++ [CR; LF]
  ++ js "Location: yeelight://192.168.1.239:55443" ++ [CR; LF]
  ++ js "id: 0x000000000015243f" ++ [CR; LF]
  ++ js "model: color" ++ [CR; LF]
  ++ js "fw_ver: 26" ++ [CR; LF]
  ++ js "support: get_prop set_power" ++ [CR; LF]
  ++ js "power: on" ++ [CR; LF]
  ++ js "name: desk" ++ [CR; LF].

Definition live_bulb : DeviceInfo :=
  {| ip := js "192.168.1.239"; port := Some 55443;
     dev_id := Some (js "0x000000000015243f");
     model := Some (js "color"); name := Some (js "desk");
     firmware := Some (js "26");
     support := Some [js "get_prop"; js "set_power"];
     power := Some (js "on") |}.

(** The reading of C1: whenever a response for an ip arrives during
    the scan, the record returned for that ip is the record of a
    response of the scan. *)
Definition live_takes_precedence (f : store) (msgs : list Buffer) : Prop :=
  forall msg d,
    In msg msgs -> live_record msg = Some d ->
    exists msg' d',
      In msg' msgs /\ live_record msg' = Some d' /\
      devices_get (ip d) (discovered true f msgs) = Some d'.

(** C1 as stated fails: the response of a bulb that is in the cache
    is dropped, because its ip already has a record, and the scan
    returns the cached record. *)
Lemma cached_entry_wins_counterexample :
  live_record bulb_response = Some live_bulb /\
  ip live_bulb = ip cached_bulb /\
  discover true (Stored [cached_bulb]) [bulb_response] = [cached_bulb] /\
  ~ live_takes_precedence (Stored [cached_bulb]) [bulb_response].
Proof.
  assert (Hl : live_record bulb_response = Some live_bulb).
  { vm_compute. reflexivity. }
  assert (Hd : devices_get (ip live_bulb)
                 (discovered true (Stored [cached_bulb]) [bulb_response]) =
               Some cached_bulb).
  { vm_compute. reflexivity. }
  split; [exact Hl|]. split; [reflexivity|]. split.
  - vm_compute. reflexivity.
  - intros H.
    destruct (H bulb_response live_bulb (or_introl eq_refl) Hl)
      as (msg' & d' & Hin & Hl' & Hg).
    destruct Hin as [Hin | []]. subst msg'.
    rewrite Hd in Hg. rewrite Hl in Hl'.
    injection Hg as Hg. injection Hl' as Hl'.
    rewrite <- Hl' in Hg.
    apply (f_equal power) in Hg. vm_compute in Hg. discriminate Hg.
Qed.

(** C1, amended.  With [useCache] the cached records populate the
    result set first, a later record of the file replacing an earlier
    one for the same ip; a response then adds its record only when
    its ip has no record yet, and changes nothing otherwise.  So the
    record returned for an ip is the cached one when the cache has
    that ip, and else the one of the first response for it: a cached
    entry takes precedence over every live response for its ip, and
    live responses fill in the ips the cache lacks.  Without
    [useCache] the first response for each ip is returned. *)
Theorem discover_cache_precedence
  (useCache : bool) (f : store) (msgs : list Buffer) :
  let cached := if useCache then loadCache f else [] in
  (forall k,
     devices_get k (discovered useCache f msgs) =
     or_else (last_cached k cached) (first_live k msgs)) /\
  (forall d,
     In d (discover useCache f msgs) <->
     or_else (last_cached (ip d) cached) (first_live (ip d) msgs) = Some d).
Proof.
  cbv zeta.
  assert (Hget : forall k,
    devices_get k (discovered useCache f msgs) =
    or_else (last_cached k (if useCache then loadCache f else []))
            (first_live k msgs)).
  { intros k. unfold discovered. rewrite receive_get.
    destruct useCache.
    - rewrite seed_get. unfold devices_get at 1. simpl.
      now destruct (last_cached k (loadCache f)).
    - reflexivity. }
  split; [exact Hget|].
  intros d. unfold discover.
  rewrite (values_keyed d _ (discovered_keyed useCache f msgs)).
  now rewrite Hget.
Qed.

Example discover_fills_gaps :
  discover true (Stored []) [bulb_response; bulb_response] = [live_bulb] /\
  discover false (Stored [cached_bulb]) [bulb_response] = [live_bulb] /\
  discover true Missing [] = [].
Proof. repeat split; vm_compute; reflexivity. Qed.

End DiscoveryProps.

(** ** Properties of the capability methods *)

Module ApiProps.
Import JS Session Capabilities SessionProps.

(** What [sendCommand] does, in either case. *)
Definition all_or_nothing (y : Yeelight) (r : result) : Prop :=
  match r with
  | (Thrown e, y', eff) => y' = y /\ eff = []
  | (Pending id, y', eff) =>
      is_connected y /\
      id = incr (messageId y) /\ messageId y' = id /\
      connected y' = connected y /\ socket y' = socket y /\
      buffer y' = buffer y /\
      exists cmd,
        eff = [Write cmd] /\ cmd_id cmd = id /\
        Map_get id (commandQueue y') = Some cmd /\
        Map_get id (timers y') = Some cmd /\
        forall k, k <> id ->
          Map_get k (commandQueue y') = Map_get k (commandQueue y) /\
          Map_get k (timers y') = Map_get k (timers y)
  end.

Lemma sendCommand_all_or_nothing m ps y :
  all_or_nothing y (sendCommand m ps y).
Proof.
  unfold sendCommand.
  destruct (connected y) eqn:Hc; cbn [negb orb]; [|split; reflexivity].
  destruct (socket y) eqn:Hs; [|split; reflexivity].
  cbn [all_or_nothing].
  split; [split; congruence|].
  destruct y as [s0 n c0 q b t]; cbn in *.
  repeat (split; [reflexivity|]).
  eexists. split; [reflexivity|]. split; [reflexivity|].
  rewrite !Map_get_set_same. repeat split; auto.
  - now apply Map_get_set_other.
  - now apply Map_get_set_other.
Qed.

(** X1.  Every capability method is all or nothing: a call that
    throws leaves the object as it was and does nothing; a call that
    does not throw was made on a connected session, takes the next
    id, writes exactly one command, which has that id, and registers
    that command and its timeout under that id without touching any
    other pending entry or timeout. *)
Theorem invoke_all_or_nothing (c : call) (y : Yeelight) :
  all_or_nothing y (invoke c y).
Proof.
  destruct c; cbn [invoke]; unfold turnOn, turnOff, setPower, setBrightness,
    setRGB, setColorTemperature, setHSV;
    repeat match goal with
           | |- all_or_nothing _ (if ?b then _ else _) => destruct b
           end;
    try apply sendCommand_all_or_nothing; split; reflexivity.
Qed.

Definition is_validation_error (e : YeelightError) : Prop :=
  e = BrightnessValidationError \/ e = TemperatureValidationError \/
  e = HueValidationError \/ e = SaturationValidationError.

Lemma guard_false (lo hi x : Z) :
  (lo <=? x) && (x <=? hi) = true -> (x <? lo) || (x >? hi) = false.
Proof.
  rewrite andb_true_iff, orb_false_iff, !Z.leb_le, Z.ltb_ge, Z.gtb_ltb, Z.ltb_ge.
  lia.
Qed.

Lemma guard_true (lo hi x : Z) :
  (lo <=? x) && (x <=? hi) = false -> (x <? lo) || (x >? hi) = true.
Proof.
  rewrite andb_false_iff, orb_true_iff, !Z.leb_gt, Z.ltb_lt, Z.gtb_ltb, Z.ltb_lt.
  lia.
Qed.

(** The validation errors are not the not-connected error. *)
Lemma validation_error_distinct (e : YeelightError) :
  is_validation_error e -> e <> NotConnected.
Proof.
  intros [-> | [-> | [-> | ->]]] H;
    apply (f_equal message) in H; vm_compute in H; discriminate H.
Qed.

End ApiProps.

(** ** The error object of [class YeelightError] *)

Module ErrorObject.
Import JS Session.

(** [String(z)] for an integer that a [number] holds exactly. *)
Definition decimal (z : Z) : jsstring :=
  js (NilZero.string_of_int (Z.to_int z)).

(** The [message] property that [super(message)] gives the error:
    the argument converted to a string, and, when the argument is
    [undefined], no own property, so that reading it gives the empty
    string of [Error.prototype].  [None] is a conversion that is not
    modelled here: a number outside the integers up to 2^53, an
    array, an object. *)
Definition Error_message (arg : option json) : option jsstring :=
  match arg with
  | None => Some []
  | Some (JStr s) => Some s
  | Some JNull => Some (js "null")
  | Some (JBool b) => Some (js (if b then "true" else "false"))
  | Some (JNum z) => if Z.abs z <=? 2 ^ 53 then Some (decimal z) else None
  | Some (JFrac _) | Some (JArr _) | Some (JObj _) => None
  end.

(** The record [YeelightError] holds the arguments of the call
    [new YeelightError(message, code, command)]; this is what
    [e.message] reads on the object the call builds. *)
Definition message_property (e : YeelightError) : option jsstring :=
  Error_message (message e).

End ErrorObject.

(** ** Properties of the command correlation *)

Module CorrelationProps.
Import JS Session SessionProps.

(** [y'] is [y] with the pending entry [k] gone and the timeout of
    command [c] cleared, and nothing else changed. *)
Definition settled (k : Z) (c : CommandOptions) (y y' : Yeelight) : Prop :=
  Map_get k (commandQueue y') = None /\
  Map_get (cmd_id c) (timers y') = None /\
  (forall k', k' <> k ->
     Map_get k' (commandQueue y') = Map_get k' (commandQueue y)) /\
  (forall k', k' <> cmd_id c ->
     Map_get k' (timers y') = Map_get k' (timers y)) /\
  messageId y' = messageId y /\ connected y' = connected y /\
  socket y' = socket y /\ buffer y' = buffer y.

Lemma settled_delete (k : Z) (c : CommandOptions) (y : Yeelight) :
  settled k c y
    (with_timers (Map_delete (cmd_id c) (timers y))
       (with_commandQueue (Map_delete k (commandQueue y)) y)).
Proof.
  destruct y as [s n cn q b t]. unfold settled. cbn.
  repeat split; auto using Map_get_delete_same, Map_get_delete_other.
Qed.

(** The property of this name of an error value; [None] is [undefined]. *)
Definition field (key : string) (err : json) : option json :=
  match err with
  | JObj m => assoc (js key) m
  | _ => None
  end.

Section Correlation.
Variable JSON_parse : jsstring -> option json.

(** A line that decodes to an object without a "method" key and with
    the number [k] under "id". *)
Definition response_for (k : Z) (line : jsstring) (props : list (jsstring * json))
  : Prop :=
  JSON_parse line = Some (JObj props) /\
  assoc (js "method") props = None /\
  assoc (js "id") props = Some (JNum k).

Lemma handleLine_response k line props y :
  response_for k line props ->
  handleLine JSON_parse line y =
  match Map_get k (commandQueue y) with
  | None => (y, [])
  | Some c =>
      settle c (JObj props)
        (with_commandQueue (Map_delete k (commandQueue y)) y)
  end.
Proof.
  intros (Hp & Hm & Hi). unfold handleLine. rewrite Hp.
  cbn [has_key get]. rewrite Hm, Hi. cbn [number_key]. reflexivity.
Qed.

(** The object after a response for [k] that is settled. *)
Definition after_settle (k : Z) (c : CommandOptions) (y : Yeelight) : Yeelight :=
  with_timers (Map_delete (cmd_id c) (timers y))
    (with_commandQueue (Map_delete k (commandQueue y)) y).

Lemma handleLine_settles k line props c y :
  response_for k line props ->
  assoc (js "error") props <> Some JNull ->
  Map_get k (commandQueue y) = Some c ->
  fst (handleLine JSON_parse line y) = after_settle k c y /\
  snd (handleLine JSON_parse line y) =
    match assoc (js "error") props with
    | None => [Resolve (cmd_id c) (JObj props)]
    | Some err =>
        [Reject (cmd_id c)
           {| message := field "message" err; code := field "code" err;
              command := Some c |}]
    end.
Proof.
  intros Hr He Hc. rewrite (handleLine_response _ _ _ _ Hr), Hc.
  unfold settle, after_settle, entry_reject, entry_resolve. cbn [has_key get].
  replace (timers (with_commandQueue (Map_delete k (commandQueue y)) y))
    with (timers y) by (destruct y; reflexivity).
  destruct (assoc (js "error") props) as [err|]; [|split; reflexivity].
  destruct err; try congruence; cbn [get field]; split; reflexivity.
Qed.

(** X3.  A success response for a pending id resolves the promise of
    the command registered under that id with the decoded response,
    removes that entry, clears the timeout of that command, and
    affects no other pending command or timeout. *)
Theorem result_resolves_pending k line props c y :
  response_for k line props ->
  assoc (js "error") props = None ->
  Map_get k (commandQueue y) = Some c ->
  let '(y', e) := handleLine JSON_parse line y in
  e = [Resolve (cmd_id c) (JObj props)] /\ settled k c y y'.
Proof.
  intros Hr He Hc.
  destruct (handleLine_settles k line props c y Hr) as [Hs Hf];
    [congruence | exact Hc |].
  destruct (handleLine JSON_parse line y) as [y' e]. cbn [fst snd] in *.
  subst y' e. rewrite He. split; [reflexivity | apply settled_delete].
Qed.


(** X5.  A decoded object without a "method" key that names no
    pending command (it has no "id", or its "id" is not a number, or
    no command is pending under that number) is dropped: nothing is
    settled, emitted or logged, and the object is unchanged. *)
Theorem unmatched_response_dropped line props y :
  JSON_parse line = Some (JObj props) ->
  assoc (js "method") props = None ->
  match assoc (js "id") props with
  | Some (JNum k) => Map_get k (commandQueue y) = None
  | _ => True
  end ->
  handleLine JSON_parse line y = (y, []).
Proof.
  intros Hp Hm Hi. unfold handleLine. rewrite Hp. cbn [has_key get].
  rewrite Hm. destruct (assoc (js "id") props) as [v|]; [|reflexivity].
  destruct v; cbn [number_key]; try reflexivity.
  now rewrite Hi.
Qed.

(** X6.  A decoded object with a "method" key is a notification
    whatever else it holds: it is emitted with the whole object as
    payload, and even when its "id" is the id of a pending command
    that command stays pending and the object is unchanged. *)
Theorem method_makes_notification line props m y :
  JSON_parse line = Some (JObj props) ->
  assoc (js "method") props = Some m ->
  handleLine JSON_parse line y =
    (y, [Emit (notification_event (JObj props))]).
Proof.
  intros Hp Hm. unfold handleLine. rewrite Hp. cbn [has_key].
  now rewrite Hm.
Qed.

(** X7.  A response for a pending id whose "error" is [null] removes
    the command from the pending table without settling it: reading
    [response.error.message] throws, the exception is caught and
    logged, and the timeout of the command stays armed, so the
    command is rejected with the "Command timeout" error when its
    deadline elapses. *)
Theorem null_error_strands_command k line props c t y :
  response_for k line props ->
  assoc (js "error") props = Some JNull ->
  Map_get k (commandQueue y) = Some c ->
  Map_get k (timers y) = Some t ->
  let '(y1, e1) := handleLine JSON_parse line y in
  e1 = [LogError TypeError] /\
  Map_get k (commandQueue y1) = None /\
  timers y1 = timers y /\
  snd (onCommandTimeout k y1) = [Reject k (CommandTimeout t)].
Proof.
  intros Hr He Hc Ht. rewrite (handleLine_response _ _ _ _ Hr), Hc.
  unfold settle. cbn [has_key get]. rewrite He. cbn [get].
  split; [reflexivity|]. split; [|split].
  - destruct y; cbn. apply Map_get_delete_same.
  - destruct y; reflexivity.
  - unfold onCommandTimeout.
    replace (timers (with_commandQueue (Map_delete k (commandQueue y)) y))
      with (timers y) by (destruct y; reflexivity).
    now rewrite Ht.
Qed.

(** X8.  Once the timeout of a command has fired, a response that
    arrives for its id afterwards is dropped without any effect. *)
Theorem late_response_dropped k line props t y :
  response_for k line props ->
  Map_get k (timers y) = Some t ->
  let y1 := fst (onCommandTimeout k y) in
  handleLine JSON_parse line y1 = (y1, []).
Proof.
  intros Hr Ht. cbv zeta. rewrite (handleLine_response _ _ _ _ Hr).
  unfold onCommandTimeout. rewrite Ht. cbn [fst].
  replace (Map_get k _) with (@None CommandOptions); [reflexivity|].
  destruct y; cbn. symmetry. apply Map_get_delete_same.
Qed.


End Correlation.

(** *** On the two commands in flight *)

Definition toggle_1 : CommandOptions :=
  {| cmd_id := 1; method := js "toggle"; params := [] |}.

Definition ok_line : jsstring := jsq "{'id':1,'result':['ok']}".
Definition ok_props : list (jsstring * json) :=
  [(js "id", JNum 1); (js "result", JArr [JStr (js "ok")])].

Definition busy_line : jsstring :=
  jsq "{'id':1,'error':{'code':-1,'message':'busy'}}".

Definition null_line : jsstring := jsq "{'id':1,'error':null}".
Definition null_props : list (jsstring * json) :=
  [(js "id", JNum 1); (js "error", JNull)].

Definition stale_line : jsstring := jsq "{'id':7,'result':['ok']}".
Definition stale_props : list (jsstring * json) :=
  [(js "id", JNum 7); (js "result", JArr [JStr (js "ok")])].

Definition props_line : jsstring :=
  jsq "{'id':1,'method':'props','params':{'power':'on'}}".
Definition props_props : list (jsstring * json) :=
  [(js "id", JNum 1); (js "method", JStr (js "props"));
   (js "params", JObj [(js "power", JStr (js "on"))])].

Ltac by_computation := vm_compute; repeat split; congruence.

Lemma result_resolves_pending_witness :
  let '(y', e) := handleLine JsonLite.parse ok_line two_pending in
  e = [Resolve (cmd_id toggle_1) (JObj ok_props)] /\
  settled 1 toggle_1 two_pending y'.
Proof.
  apply (result_resolves_pending JsonLite.parse 1 ok_line ok_props
           toggle_1 two_pending).
  - by_computation.
  - reflexivity.
  - reflexivity.
Defined.


(** The message and the code read on the error of the rejection. *)
Example busy_error_message :
  match snd (handleLine JsonLite.parse busy_line two_pending) with
  | [Reject 1 r] =>
      ErrorObject.message_property r = Some (js "busy") /\
      code r = Some (JNum (-1))
  | _ => False
  end.
Proof. vm_compute. split; reflexivity. Qed.

Lemma unmatched_response_dropped_witness :
  handleLine JsonLite.parse stale_line two_pending = (two_pending, []).
Proof.
  apply (unmatched_response_dropped JsonLite.parse stale_line stale_props
           two_pending).
  - reflexivity.
  - reflexivity.
  - reflexivity.
Defined.

Lemma method_makes_notification_witness :
  handleLine JsonLite.parse props_line two_pending =
    (two_pending, [Emit (notification_event (JObj props_props))]).
Proof.
  apply (method_makes_notification JsonLite.parse props_line props_props
           (JStr (js "props")) two_pending).
  - reflexivity.
  - reflexivity.
Defined.

Lemma null_error_strands_command_witness :
  let '(y1, e1) := handleLine JsonLite.parse null_line two_pending in
  e1 = [LogError TypeError] /\
  Map_get 1 (commandQueue y1) = None /\
  timers y1 = timers two_pending /\
  snd (onCommandTimeout 1 y1) = [Reject 1 (CommandTimeout toggle_1)].
Proof.
  apply (null_error_strands_command JsonLite.parse 1 null_line null_props
           toggle_1 toggle_1 two_pending).
  - by_computation.
  - reflexivity.
  - reflexivity.
  - reflexivity.
Defined.

Lemma late_response_dropped_witness :
  let y1 := fst (onCommandTimeout 1 two_pending) in
  handleLine JsonLite.parse ok_line y1 = (y1, []).
Proof.
  apply (late_response_dropped JsonLite.parse 1 ok_line ok_props
           toggle_1 two_pending).
  - by_computation.
  - reflexivity.
Defined.


(** X10.  After the close handler has run, the timeout of no command
    that was pending fires any more. *)
Theorem closed_command_never_times_out (kc : Z * CommandOptions) (y : Yeelight) :
  In kc (commandQueue y) ->
  let y1 := fst (handleClose y) in
  onCommandTimeout (cmd_id (snd kc)) y1 = (y1, []).
Proof.
  intros Hin. cbv zeta. rewrite handleClose_spec. cbn [fst].
  unfold onCommandTimeout. cbn [timers].
  now rewrite (clear_timers_cleared _ _ _ Hin).
Qed.

Lemma closed_command_never_times_out_witness :
  let y1 := fst (handleClose two_pending) in
  onCommandTimeout (cmd_id (snd (1, toggle_1))) y1 = (y1, []).
Proof.
  apply (closed_command_never_times_out (1, toggle_1) two_pending).
  left. reflexivity.
Defined.

End CorrelationProps.

(** ** Invariants of a session object *)

Module InvariantProps.
Import JS Session SessionProps CorrelationProps.

(** *** Map facts *)

Lemma Map_get_delete_Some {V} (k id : Z) (v : V) (m : Map V) :
  Map_get k (Map_delete id m) = Some v -> k <> id /\ Map_get k m = Some v.
Proof.
  intros H. destruct (Z.eq_dec k id) as [-> | Hne].
  - rewrite Map_get_delete_same in H. discriminate.
  - rewrite (Map_get_delete_other _ _ _ Hne) in H. auto.
Qed.

Lemma Map_keys_In_delete {V} (k x : Z) (m : Map V) :
  In x (Map_keys (Map_delete k m)) -> In x (Map_keys m).
Proof.
  induction m as [|[k' v] m IH]; simpl; auto.
  destruct (k =? k'); simpl; intuition.
Qed.

Lemma NoDup_keys_delete {V} (k : Z) (m : Map V) :
  NoDup (Map_keys m) -> NoDup (Map_keys (Map_delete k m)).
Proof.
  induction m as [|[k' v] m IH]; simpl; auto.
  rewrite NoDup_cons_iff. intros [Hn Hd].
  destruct (k =? k'); auto.
  simpl. rewrite NoDup_cons_iff. split; auto.
  intros Hin. apply Hn. now apply Map_keys_In_delete in Hin.
Qed.

Lemma Map_keys_In_set {V} (k x : Z) (v : V) (m : Map V) :
  In x (Map_keys (Map_set k v m)) -> x = k \/ In x (Map_keys m).
Proof.
  induction m as [|[k' v'] m IH]; simpl.
  - intuition.
  - destruct (k =? k') eqn:E; simpl.
    + apply Z.eqb_eq in E. subst k'. intuition.
    + intuition.
Qed.

Lemma NoDup_keys_set {V} (k : Z) (v : V) (m : Map V) :
  NoDup (Map_keys m) -> NoDup (Map_keys (Map_set k v m)).
Proof.
  induction m as [|[k' v'] m IH]; simpl.
  - intros _. repeat constructor. simpl. tauto.
  - rewrite NoDup_cons_iff. intros [Hn Hd].
    destruct (k =? k') eqn:E; simpl; rewrite NoDup_cons_iff.
    + apply Z.eqb_eq in E. subst k'. auto.
    + split; auto. intros Hin. apply Map_keys_In_set in Hin.
      apply Z.eqb_neq in E. destruct Hin; [congruence | contradiction].
Qed.

Lemma Map_get_keys {V} (k : Z) (v : V) (m : Map V) :
  Map_get k m = Some v -> In (k, v) m.
Proof.
  induction m as [|[k' v'] m IH]; simpl; [discriminate|].
  destruct (k =? k') eqn:E.
  - apply Z.eqb_eq in E. intros [= ->]. subst. auto.
  - auto.
Qed.

(** *** The invariant *)

(** One entry per pending id, stored under the id of its command;
    every pending id was issued; every pending command has its
    timeout armed, with the same command. *)
Definition table_ok (n : Z) (q t : Map CommandOptions) : Prop :=
  NoDup (Map_keys q) /\
  Forall (fun kc => cmd_id (snd kc) = fst kc) q /\
  (forall k, In k (Map_keys q) -> 1 <= k <= n) /\
  0 <= n /\
  (forall k c, Map_get k q = Some c -> Map_get k t = Some c).

Definition session_ok (y : Yeelight) : Prop :=
  table_ok (messageId y) (commandQueue y) (timers y).

Lemma table_ok_delete n q t k :
  table_ok n q t -> table_ok n (Map_delete k q) (Map_delete k t).
Proof.
  intros (Hn & Hw & Hi & H0 & Ht). repeat split; auto.
  - now apply NoDup_keys_delete.
  - rewrite Forall_forall in *. intros kc Hin. apply Hw.
    now apply (incl_delete k q).
  - apply Hi. now apply Map_keys_In_delete in H.
  - apply Hi. now apply Map_keys_In_delete in H.
  - intros k' c Hg. apply Map_get_delete_Some in Hg. destruct Hg as [Hne Hg].
    rewrite (Map_get_delete_other _ _ _ Hne). auto.
Qed.

Lemma table_ok_delete_entry n q t k :
  table_ok n q t -> table_ok n (Map_delete k q) t.
Proof.
  intros (Hn & Hw & Hi & H0 & Ht). repeat split; auto.
  - now apply NoDup_keys_delete.
  - rewrite Forall_forall in *. intros kc Hin. apply Hw.
    now apply (incl_delete k q).
  - apply Hi. now apply Map_keys_In_delete in H.
  - apply Hi. now apply Map_keys_In_delete in H.
  - intros k' c Hg. apply Map_get_delete_Some in Hg. destruct Hg as [Hne Hg].
    auto.
Qed.

Lemma incr_bounds (n : Z) : 0 <= n -> n <= incr n <= n + 1 /\ 1 <= incr n.
Proof.
  intros H. unfold incr, MAX_EXACT.
  destruct (n <? 2 ^ 53) eqn:E; [lia|].
  apply Z.ltb_ge in E. lia.
Qed.

Lemma table_ok_set n q t m ps :
  table_ok n q t ->
  let c := {| cmd_id := incr n; method := m; params := ps |} in
  table_ok (incr n) (Map_set (incr n) c q) (Map_set (incr n) c t).
Proof.
  intros (Hn & Hw & Hi & H0 & Ht) c.
  destruct (incr_bounds n H0) as [Hb H1].
  repeat split; auto; try lia.
  - now apply NoDup_keys_set.
  - rewrite Forall_forall in *. intros kc Hin.
    apply In_set in Hin. destruct Hin as [-> | Hin]; auto.
  - apply Map_keys_In_set in H. destruct H as [-> | H]; [lia|].
    apply Hi in H. lia.
  - apply Map_keys_In_set in H. destruct H as [-> | H]; [lia|].
    apply Hi in H. lia.
  - intros k c' Hg. destruct (Z.eq_dec k (incr n)) as [-> | Hne].
    + rewrite Map_get_set_same in Hg. rewrite Map_get_set_same. exact Hg.
    + rewrite (Map_get_set_other _ _ _ _ Hne) in Hg.
      rewrite (Map_get_set_other _ _ _ _ Hne). auto.
Qed.

Lemma table_ok_close n q t :
  table_ok n q t -> table_ok n [] (clear_timers q t).
Proof.
  intros (Hn & Hw & Hi & H0 & Ht).
  split; [constructor|]. split; [constructor|].
  split; [intros k []|]. split; [exact H0|].
  intros k c H. discriminate H.
Qed.

Section Invariant.
Variable JSON_parse : jsstring -> option json.

(** What the loop body can do to the object. *)
Lemma handleLine_shape line y :
  let y' := fst (handleLine JSON_parse line y) in
  y' = y \/
  exists k c,
    Map_get k (commandQueue y) = Some c /\
    (y' = with_commandQueue (Map_delete k (commandQueue y)) y \/
     y' = after_settle k c y).
Proof.
  cbv zeta. unfold handleLine.
  destruct (JSON_parse line) as [response|]; [|now left].
  destruct (has_key (js "method") response) as [e|[|]]; try now left.
  destruct (has_key (js "id") response) as [e|[|]]; try now left.
  destruct (get (js "id") response) as [e|v]; [now left|].
  destruct (number_key v) as [k|]; [|now left].
  destruct (Map_get k (commandQueue y)) as [c|] eqn:Hc; [|now left].
  right. exists k, c. split; [exact Hc|].
  unfold settle, entry_reject, entry_resolve, after_settle.
  replace (timers (with_commandQueue (Map_delete k (commandQueue y)) y))
    with (timers y) by (destruct y; reflexivity).
  repeat match goal with
         | |- context [match ?x with _ => _ end] => destruct x
         end; cbn [fst]; auto.
Qed.

Lemma handleLine_ok line y :
  session_ok y -> session_ok (fst (handleLine JSON_parse line y)).
Proof.
  intros Hy. destruct (handleLine_shape line y) as [-> | (k & c & Hc & [-> | ->])].
  - exact Hy.
  - destruct y as [s n cn q b t]. unfold session_ok in *. cbn in *.
    now apply table_ok_delete_entry.
  - assert (Hk : cmd_id c = k).
    { destruct Hy as (_ & Hw & _). rewrite Forall_forall in Hw.
      apply (Hw (k, c)). now apply Map_get_keys. }
    unfold after_settle. rewrite Hk.
    destruct y as [s n cn q b t]. unfold session_ok in *. cbn in *.
    now apply table_ok_delete.
Qed.

Lemma feed_lines_ok ls : forall y,
  session_ok y -> session_ok (fst (FramerProps.feed_lines JSON_parse ls y)).
Proof.
  induction ls as [|l ls IH]; intros y Hy; cbn [FramerProps.feed_lines].
  - exact Hy.
  - pose proof (handleLine_ok l y Hy) as H1.
    destruct (handleLine JSON_parse l y) as [y1 e1]. cbn [fst] in H1.
    specialize (IH y1 H1).
    destruct (FramerProps.feed_lines JSON_parse ls y1) as [y2 e2]. exact IH.
Qed.

Lemma step_ok o y :
  session_ok y -> session_ok (step_state JSON_parse o y).
Proof.
  intros Hy. unfold step_state.
  assert (Hsend : forall m ps, session_ok (snd (fst (sendCommand m ps y)))).
  { intros m ps. unfold sendCommand. destruct (_ || _); [exact Hy|].
    destruct y as [s n cn q b t]. unfold session_ok in *. cbn in *.
    now apply table_ok_set. }
  destruct o; cbn [step no_outcome call fst snd].
  - unfold connect. destruct (connected y); [exact Hy|].
    destruct y; exact Hy.
  - destruct y; exact Hy.
  - unfold disconnect. destruct (socket y); destruct y; exact Hy.
  - specialize (Hsend m ps).
    now destruct (sendCommand m ps y) as [[out y'] e].
  - unfold setBrightness. destruct (_ || _); [exact Hy|].
    match goal with |- context [sendCommand ?m ?ps y] =>
      specialize (Hsend m ps); now destruct (sendCommand m ps y) as [[out y'] e]
    end.
  - unfold setRGB.
    match goal with |- context [sendCommand ?m ?ps y] =>
      specialize (Hsend m ps); now destruct (sendCommand m ps y) as [[out y'] e]
    end.
  - unfold handleData. rewrite FramerProps.handleText_lines.
    apply feed_lines_ok. destruct y; exact Hy.
  - destruct y; exact Hy.
  - rewrite handleClose_spec. cbn [fst].
    destruct y as [s n cn q b t]. unfold session_ok in *. cbn in *.
    now apply table_ok_close.
  - unfold onCommandTimeout. destruct (Map_get id (timers y)); [|exact Hy].
    destruct y as [s n cn q b t]. unfold session_ok in *. cbn in *.
    now apply table_ok_delete.
  - destruct y as [s n cn q b t]. unfold session_ok in *. cbn in *.
    now apply table_ok_delete.
Qed.

Lemma run_ok ops : forall y,
  session_ok y -> session_ok (run JSON_parse ops y).
Proof.
  induction ops as [|o ops IH]; intros y Hy; cbn [run]; auto.
  apply IH. now apply step_ok.
Qed.

Lemma new_ok : session_ok new_Yeelight.
Proof.
  split; [constructor|]. split; [constructor|].
  split; [intros k []|]. split; [cbn; lia|].
  intros k c H. discriminate H.
Qed.

Lemma step_counter o y :
  0 <= messageId y ->
  messageId (step_state JSON_parse o y) <= messageId y + 1.
Proof.
  intros H0. destruct (step_id JSON_parse o y) as [id|] eqn:Hid.
  - destruct (step_some_id _ _ _ _ Hid) as (Hi & Hm & _).
    rewrite Hm, Hi. destruct (incr_bounds _ H0). lia.
  - destruct (step_no_id _ _ _ Hid) as [Hm _]. lia.
Qed.

Lemma run_counter ops : forall y,
  session_ok y ->
  messageId (run JSON_parse ops y) <= messageId y + Z.of_nat (List.length ops).
Proof.
  induction ops as [|o ops IH]; intros y Hy; cbn [run List.length].
  - lia.
  - pose proof (step_ok o y Hy) as H1.
    specialize (IH _ H1).
    assert (0 <= messageId y) by (destruct Hy as (_ & _ & _ & H & _); exact H).
    pose proof (step_counter o y H). lia.
Qed.

End Invariant.

(** X11.  Whatever happens to a session object, its pending table
    holds at most one entry per id, every entry sits under the id of
    its own command, every pending id lies between 1 and the id
    counter, and the counter never exceeds the number of steps taken
    (stated for runs shorter than 2^53 steps, in which no id is
    issued twice). *)
Theorem pending_table_invariant
  (JSON_parse : jsstring -> option json) (ops : list op) :
  Z.of_nat (List.length ops) < MAX_EXACT ->
  let y := run JSON_parse ops new_Yeelight in
  NoDup (Map_keys (commandQueue y)) /\
  Forall (fun kc => cmd_id (snd kc) = fst kc) (commandQueue y) /\
  (forall k, In k (Map_keys (commandQueue y)) -> 1 <= k <= messageId y) /\
  0 <= messageId y <= Z.of_nat (List.length ops).
Proof.
  intros _. cbv zeta.
  destruct (run_ok JSON_parse ops new_Yeelight new_ok) as (Hn & Hw & Hi & H0 & _).
  pose proof (run_counter JSON_parse ops new_Yeelight new_ok) as Hc.
  cbn [messageId new_Yeelight] in Hc.
  split; [exact Hn|]. split; [exact Hw|]. split; [exact Hi|]. lia.
Qed.

(** X12.  Whatever happens to a session object, every command in its
    pending table has its timeout armed: no command stays pending
    without a deadline that will reject it (stated for runs shorter
    than 2^53 steps, in which no id is issued twice). *)
Theorem pending_has_deadline
  (JSON_parse : jsstring -> option json) (ops : list op)
  (k : Z) (c : CommandOptions) :
  Z.of_nat (List.length ops) < MAX_EXACT ->
  Map_get k (commandQueue (run JSON_parse ops new_Yeelight)) = Some c ->
  Map_get k (timers (run JSON_parse ops new_Yeelight)) = Some c.
Proof.
  intros _.
  destruct (run_ok JSON_parse ops new_Yeelight new_ok) as (_ & _ & _ & _ & Ht).
  apply Ht.
Qed.

(** Two sends, a response for the first, and the start of a line. *)
Definition busy_run : list op :=
  [Connect; SocketConnect; Send (js "toggle") [];
   Send (js "get_prop") [JStr (js "power")];
   Data (ok_line ++ [CR; LF] ++ jsq "{'id':2")].

Lemma pending_has_deadline_witness :
  let c := {| cmd_id := 2; method := js "get_prop";
              params := [JStr (js "power")] |} in
  Map_get 2 (timers (run JsonLite.parse busy_run new_Yeelight)) = Some c.
Proof.
  apply (pending_has_deadline JsonLite.parse busy_run 2).
  - vm_compute. reflexivity.
  - vm_compute. reflexivity.
Defined.

Lemma pending_table_invariant_witness :
  let y := run JsonLite.parse busy_run new_Yeelight in
  NoDup (Map_keys (commandQueue y)) /\
  Forall (fun kc => cmd_id (snd kc) = fst kc) (commandQueue y) /\
  (forall k, In k (Map_keys (commandQueue y)) -> 1 <= k <= messageId y) /\
  0 <= messageId y <= Z.of_nat (List.length busy_run).
Proof.
  apply (pending_table_invariant JsonLite.parse busy_run).
  vm_compute. reflexivity.
Defined.

(** A step that is not a delivery of data. *)
Definition not_data (o : op) : Prop :=
  match o with
  | Data _ => False
  | _ => True
  end.

(** X13.  Only a delivery of data changes the line buffer: connect,
    disconnect, transport error and close, sends and timeouts leave
    it as it is, so an unterminated rest of a line from one
    connection is still in the buffer when the next connection
    delivers its first bytes. *)
Theorem buffer_survives (JSON_parse : jsstring -> option json) (ops : list op) :
  forall y, Forall not_data ops -> buffer (run JSON_parse ops y) = buffer y.
Proof.
  induction ops as [|o ops IH]; intros y Hall; cbn [run]; [reflexivity|].
  inversion Hall as [|? ? Ho Hops]; subst.
  rewrite (IH _ Hops). unfold step_state.
  destruct o; cbn [step no_outcome call fst snd not_data] in *;
    try contradiction.
  - unfold connect. destruct (connected y); destruct y; reflexivity.
  - destruct y; reflexivity.
  - unfold disconnect. destruct (socket y); destruct y; reflexivity.
  - unfold sendCommand. destruct (_ || _); destruct y; reflexivity.
  - unfold setBrightness, sendCommand.
    destruct (_ || _); [reflexivity|].
    destruct (_ || _); destruct y; reflexivity.
  - unfold setRGB, sendCommand. destruct (_ || _); destruct y; reflexivity.
  - destruct y; reflexivity.
  - rewrite handleClose_spec. reflexivity.
  - unfold onCommandTimeout. destruct (Map_get id (timers y));
      destruct y; reflexivity.
  - destruct y; reflexivity.
Qed.

Lemma buffer_survives_witness :
  let y := run JsonLite.parse busy_run new_Yeelight in
  buffer (run JsonLite.parse [SocketClose; Connect; SocketConnect] y) =
  buffer y.
Proof.
  apply (buffer_survives JsonLite.parse [SocketClose; Connect; SocketConnect]).
  repeat constructor.
Defined.

(** The rest of the old line is glued to the first line of the new
    connection, which then fails to decode. *)
Example stale_rest_garbles_next_line :
  run_effects JsonLite.parse
    [SocketClose; Connect; SocketConnect;
     Data FramerProps.power_notification]
    (run JsonLite.parse busy_run new_Yeelight) =
  [Emit disconnected_event;
   Reject 2 ConnectionClosed;
   OpenSocket; Emit connected_event;
   LogError SyntaxError].
Proof. vm_compute. reflexivity. Qed.

End InvariantProps.

(** ** More properties of the line framer *)

Module FramerMore.
Import JS Session FramerProps.

Lemma cut_rest (s : jsstring) : cut (snd (split_lines s)) = None.
Proof.
  induction s as [|c s IH]; [reflexivity|].
  cbn [split_lines]. destruct (split_lines s) as [ls r]. cbn [snd] in IH.
  destruct (LF =? c) eqn:E; [exact IH|].
  destruct ls; cbn [snd cut]; [|exact IH].
  now rewrite E, IH.
Qed.

Lemma lines_count (s : jsstring) :
  List.length (fst (split_lines s)) = count_occ Z.eq_dec s LF.
Proof.
  induction s as [|c s IH]; [reflexivity|].
  cbn [split_lines count_occ]. destruct (split_lines s) as [ls r].
  cbn [fst] in IH.
  destruct (Z.eq_dec c LF) as [-> | Hne].
  - rewrite Z.eqb_refl. cbn [fst List.length]. now rewrite IH.
  - assert (E : (LF =? c) = false) by (apply Z.eqb_neq; congruence).
    rewrite E. destruct ls; cbn [fst List.length] in *; exact IH.
Qed.

Lemma utf8_after_ascii (bytes : Buffer) :
  Forall (fun b => 0 <= b <= 127) bytes -> utf8_after Start bytes = Start.
Proof.
  induction 1 as [|b bytes Hb _ IH]; [reflexivity|].
  cbn [utf8_after utf8_step]. unfold utf8_lead.
  replace (b <=? 0x7F) with true by (symmetry; apply Z.leb_le; lia).
  exact IH.
Qed.

(** Bytes below 128 decode to themselves. *)
Lemma toString_ascii (bytes : Buffer) :
  Forall (fun b => 0 <= b <= 127) bytes -> toString bytes = bytes.
Proof.
  unfold toString. induction 1 as [|b bytes Hb _ IH]; [reflexivity|].
  cbn [utf8_decode utf8_step]. unfold utf8_lead.
  replace (b <=? 0x7F) with true by (symmetry; apply Z.leb_le; lia).
  cbn [app]. now rewrite IH.
Qed.

Section Framer.
Variable JSON_parse : jsstring -> option json.

Lemma handleLine_one_effect line y :
  (List.length (snd (handleLine JSON_parse line y)) <= 1)%nat.
Proof.
  unfold handleLine, settle, entry_reject, entry_resolve.
  repeat match goal with
         | |- context [match ?x with _ => _ end] => destruct x
         end; cbn; lia.
Qed.

Lemma feed_lines_effects ls : forall y,
  (List.length (snd (feed_lines JSON_parse ls y)) <= List.length ls)%nat.
Proof.
  induction ls as [|l ls IH]; intros y; cbn [feed_lines].
  - cbn. lia.
  - pose proof (handleLine_one_effect l y) as H1.
    destruct (handleLine JSON_parse l y) as [y1 e1]. cbn [snd] in H1.
    specialize (IH y1). destruct (feed_lines JSON_parse ls y1) as [y2 e2].
    cbn [snd List.length] in *. rewrite length_app. lia.
Qed.

(** X14.  After every delivery the buffer holds no line terminator:
    it is exactly the unterminated rest of the text received so far,
    and every complete line has been taken out of it. *)
Theorem buffer_holds_no_terminator (data : Buffer) (y : Yeelight) :
  let y' := fst (handleData JSON_parse data y) in
  indexOf [LF] (buffer y') = -1 /\
  buffer y' = snd (split_lines (buffer y ++ toString data)).
Proof.
  cbv zeta. unfold handleData. rewrite handleText_lines.
  rewrite (feed_lines_buffer JSON_parse).
  replace (buffer (with_buffer _ y))
    with (snd (split_lines (buffer y ++ toString data)))
    by (destruct y; reflexivity).
  split; [|reflexivity].
  pose proof (indexOf_cut (snd (split_lines (buffer y ++ toString data)))) as H.
  now rewrite cut_rest in H.
Qed.

(** X15.  A delivery causes at most one effect (a notification, a
    settled command or a logged error) per line terminator in the
    buffered text, so data that completes no line only grows the
    buffer. *)
Theorem one_effect_per_line (data : Buffer) (y : Yeelight) :
  (List.length (snd (handleData JSON_parse data y)) <=
   count_occ Z.eq_dec (buffer y ++ toString data) LF)%nat.
Proof.
  unfold handleData. rewrite handleText_lines, <- lines_count.
  apply feed_lines_effects.
Qed.

(** X16.  Deliveries that cut the stream of bytes anywhere but
    inside a multi-byte character (inside a line, between lines,
    after several lines) leave the object in the state, and cause
    the effects, of one delivery of all the bytes; the last delivery
    may end anywhere. *)
Theorem deliver_cut_between_characters (rest : list Buffer) :
  forall (data : Buffer) (y : Yeelight),
  Forall whole_characters (removelast (data :: rest)) ->
  deliver JSON_parse (data :: rest) y =
  handleData JSON_parse (data ++ List.concat rest) y.
Proof.
  induction rest as [|d2 rest IH]; intros data y Hall.
  - cbn [deliver List.concat]. rewrite app_nil_r.
    destruct (handleData JSON_parse data y) as [y1 e1].
    now rewrite app_nil_r.
  - change (removelast (data :: d2 :: rest))
      with (data :: removelast (d2 :: rest)) in Hall.
    inversion Hall as [|? ? Hd Hrest]; subst.
    change (deliver JSON_parse (data :: d2 :: rest) y)
      with (let '(y1, e1) := handleData JSON_parse data y in
            let '(y2, e2) := deliver JSON_parse (d2 :: rest) y1 in
            (y2, e1 ++ e2)).
    cbn [List.concat].
    rewrite (handleData_app JSON_parse data (d2 ++ List.concat rest) y Hd).
    destruct (handleData JSON_parse data y) as [y1 e1]. cbn [fst snd].
    rewrite (IH d2 y1 Hrest).
    now destruct (handleData JSON_parse (d2 ++ List.concat rest) y1).
Qed.

(** X17.  When all the bytes are ASCII, every way of cutting the
    stream into deliveries gives the state and the effects of one
    delivery of all the bytes. *)
Theorem deliver_ascii (rest : list Buffer) (data : Buffer) (y : Yeelight) :
  Forall (Forall (fun b => 0 <= b <= 127)) (data :: rest) ->
  deliver JSON_parse (data :: rest) y =
  handleData JSON_parse (data ++ List.concat rest) y.
Proof.
  intros Hall. apply deliver_whole_characters.
  rewrite Forall_forall in *. intros d Hd.
  apply utf8_after_ascii. rewrite Forall_forall. intros b Hb.
  exact (proj1 (Forall_forall _ _) (Hall d Hd) b Hb).
Qed.

End Framer.

(** The notification of the failing delivery, cut inside the line but
    before its two-byte character, and once more after the line. *)
Definition name_cut_1 : Buffer := jsq "{'method':'props','par".
Definition name_cut_2 : Buffer :=
  jsq "ams':{'name':'caf" ++ [0xC3; 0xA9] ++ jsq "'}}" ++ [CR; LF]
  ++ jsq "{'id':".
Definition name_cut_3 : Buffer := jsq "9,'res".

Lemma deliver_cut_between_characters_witness :
  deliver JsonLite.parse [name_cut_1; name_cut_2; name_cut_3]
    (SessionProps.connected_session 0) =
  handleData JsonLite.parse
    (name_cut_1 ++ List.concat [name_cut_2; name_cut_3])
    (SessionProps.connected_session 0).
Proof.
  apply (deliver_cut_between_characters JsonLite.parse
           [name_cut_2; name_cut_3] name_cut_1
           (SessionProps.connected_session 0)).
  repeat constructor.
Defined.

Definition ascii_cut_1 : Buffer := jsq "{'id':1,'resu".
Definition ascii_cut_2 : Buffer := jsq "lt':['ok']}" ++ [CR].
Definition ascii_cut_3 : Buffer :=
  [LF] ++ jsq "{'method':'props','params':{'bright':40}}" ++ [CR; LF].

Lemma deliver_ascii_witness :
  deliver JsonLite.parse [ascii_cut_1; ascii_cut_2; ascii_cut_3]
    SessionProps.two_pending =
  handleData JsonLite.parse
    (ascii_cut_1 ++ List.concat [ascii_cut_2; ascii_cut_3])
    SessionProps.two_pending.
Proof.
  apply (deliver_ascii JsonLite.parse [ascii_cut_2; ascii_cut_3] ascii_cut_1
           SessionProps.two_pending).
  repeat (apply Forall_cons || apply Forall_nil); vm_compute;
    split; discriminate.
Defined.

Example deliver_ascii_effects :
  snd (deliver JsonLite.parse [ascii_cut_1; ascii_cut_2; ascii_cut_3]
         SessionProps.two_pending) =
  [Resolve 1 (JObj CorrelationProps.ok_props);
   Emit (notification_event
           (JObj [(js "method", JStr (js "props"));
                  (js "params", JObj [(js "bright", JNum 40)])]))].
Proof. vm_compute. reflexivity. Qed.

End FramerMore.

(** ** More properties of the discovery scanner *)

Module DiscoveryMore.
Import JS Discovery DiscoveryProps.

(** *** Header lines *)

(** No code unit of the pattern folds onto the line feed. *)
Definition no_line_feed (pattern : jsstring) : Prop :=
  Forall (fun c => canonicalize c <> LF) pattern.

(** The text holds neither a carriage return nor a line feed. *)
Definition one_line (v : jsstring) : Prop :=
  Forall (fun c => c <> CR /\ c <> LF) v.

(** The text is at its end or goes on with a line break. *)
Definition line_ends (rest : jsstring) : Prop :=
  rest = [] \/ exists r, rest = CR :: r \/ rest = LF :: r.

(** The text is empty or ends with a line feed. *)
Definition whole_lines (pre : jsstring) : Prop :=
  pre = [] \/ exists p, pre = p ++ [LF].

Lemma match_here_cons (x c : Z) (pattern w : jsstring) :
  match_here (x :: pattern) (c :: w) =
  if canonicalize x =? canonicalize c then match_here pattern w else None.
Proof.
  unfold match_here. cbn [startsWith_ci List.length skipn].
  now destruct (canonicalize x =? canonicalize c).
Qed.

Lemma line_rest_one_line (v rest : jsstring) :
  one_line v -> line_ends rest -> line_rest (v ++ rest) = v.
Proof.
  intros Hv Hr. induction Hv as [|c v [Hc1 Hc2] _ IH]; cbn [app line_rest].
  - destruct Hr as [-> | [r [-> | ->]]]; reflexivity.
  - apply Z.eqb_neq in Hc1, Hc2. rewrite Hc1, Hc2. cbn [orb]. now rewrite IH.
Qed.

Lemma line_rest_stops (u s : jsstring) :
  line_rest (u ++ LF :: s) = line_rest (u ++ [LF]).
Proof.
  induction u as [|c u IH]; cbn [app line_rest].
  - reflexivity.
  - destruct ((c =? CR) || (c =? LF)); [reflexivity | now rewrite IH].
Qed.

Lemma match_here_same_header (pattern : jsstring) : forall h x,
  map canonicalize h = map canonicalize pattern ->
  match_here pattern (h ++ x) =
  match line_rest x with [] => None | v => Some v end.
Proof.
  induction pattern as [|c pattern IH]; intros [|d h] x Hh;
    try discriminate Hh.
  - reflexivity.
  - cbn [map] in Hh. injection Hh as Hd Hh.
    cbn [app]. rewrite match_here_cons, Hd, Z.eqb_refl. now apply IH.
Qed.

Lemma match_here_before_line_feed (pattern : jsstring) : forall u s,
  no_line_feed pattern ->
  match_here pattern (u ++ [LF]) = None ->
  match_here pattern (u ++ LF :: s) = None.
Proof.
  induction pattern as [|x pattern IH]; intros u s Hp Hu.
  - unfold match_here in *. cbn [startsWith_ci List.length skipn] in *.
    now rewrite line_rest_stops.
  - inversion Hp as [|? ? Hx Hp']; subst.
    destruct u as [|c u]; cbn [app] in *.
    + rewrite match_here_cons.
      replace (canonicalize x =? canonicalize LF) with false; [reflexivity|].
      symmetry. apply Z.eqb_neq. exact Hx.
    + rewrite match_here_cons in *.
      destruct (canonicalize x =? canonicalize c); [|reflexivity].
      now apply IH.
Qed.

Lemma match_group_skips_lines (pattern : jsstring) (s : jsstring) : forall p,
  no_line_feed pattern ->
  match_group pattern (p ++ [LF]) = None ->
  match_group pattern (p ++ LF :: s) = match_group pattern s.
Proof.
  intros p Hp. induction p as [|c p IH]; cbn [app match_group]; intros Hn.
  - destruct (match_here pattern [LF]) eqn:E; [discriminate|].
    pose proof (match_here_before_line_feed pattern [] s Hp E) as H.
    cbn [app] in H. now rewrite H.
  - destruct (match_here pattern (c :: p ++ [LF])) eqn:E; [discriminate|].
    pose proof (match_here_before_line_feed pattern (c :: p) s Hp E) as H.
    cbn [app] in H. rewrite H. now apply IH.
Qed.

Lemma match_group_here (pattern s : jsstring) (v : jsstring) :
  match_here pattern s = Some v -> match_group pattern s = Some v.
Proof. intros H. destruct s; cbn [match_group]; now rewrite H. Qed.

Lemma header_value (pattern h v pre rest : jsstring) :
  no_line_feed pattern ->
  map canonicalize h = map canonicalize pattern ->
  v <> [] -> one_line v -> line_ends rest ->
  whole_lines pre -> match_group pattern pre = None ->
  match_group pattern (pre ++ h ++ v ++ rest) = Some v.
Proof.
  intros Hp Hh Hv Hone Hend Hpre Hnone.
  assert (Hhere : match_here pattern (h ++ v ++ rest) = Some v).
  { rewrite (match_here_same_header pattern h _ Hh).
    rewrite (line_rest_one_line v rest Hone Hend).
    destruct v; [now elim Hv | reflexivity]. }
  destruct Hpre as [-> | [p ->]].
  - cbn [app]. now apply match_group_here.
  - rewrite <- app_assoc. cbn [app].
    rewrite (match_group_skips_lines pattern _ p Hp Hnone).
    now apply match_group_here.
Qed.

Lemma no_line_feed_key (key : string) :
  no_line_feed (js key) -> no_line_feed (js key ++ js ": ").
Proof.
  intros H. apply Forall_app. split; [exact H|].
  repeat constructor; vm_compute; discriminate.
Qed.

(** X18.  [extractValue] returns the value of a header line: when
    the response holds, at the start of a line, the key in any
    mixture of upper and lower case, a colon, a space and a
    non-empty value up to the end of the line, and no earlier place
    of the response matches, the value is returned as it stands. *)
Theorem extractValue_header (key : string) (h v pre rest : jsstring) :
  no_line_feed (js key) ->
  map canonicalize h = map canonicalize (js key ++ js ": ") ->
  v <> [] -> one_line v -> line_ends rest ->
  whole_lines pre -> match_group (js key ++ js ": ") pre = None ->
  extractValue (pre ++ h ++ v ++ rest) (js key) = Some v.
Proof.
  intros Hk Hh Hv Hone Hend Hpre Hnone. unfold extractValue.
  apply header_value; auto. now apply no_line_feed_key.
Qed.

Lemma split_one (sep : Z) (a : jsstring) :
  Forall (fun c => c <> sep) a -> split sep a = [a].
Proof.
  induction 1 as [|c a Hc _ IH]; [reflexivity|].
  cbn [split]. apply Z.eqb_neq in Hc. now rewrite Hc, IH.
Qed.

Lemma split_two (sep : Z) (a b : jsstring) :
  Forall (fun c => c <> sep) a -> Forall (fun c => c <> sep) b ->
  split sep (a ++ sep :: b) = [a; b].
Proof.
  intros Ha Hb. induction Ha as [|c a Hc _ IH]; cbn [app split].
  - now rewrite Z.eqb_refl, split_one.
  - apply Z.eqb_neq in Hc. now rewrite Hc, IH.
Qed.

(** An address or port as a device prints it: one line, no colon. *)
Definition plain (a : jsstring) : Prop :=
  Forall (fun c => c <> 58 /\ c <> CR /\ c <> LF) a.

Lemma plain_one_line a : plain a -> one_line a.
Proof. apply Forall_impl. tauto. Qed.

Lemma plain_no_colon a : plain a -> Forall (fun c => c <> 58) a.
Proof. apply Forall_impl. tauto. Qed.

(** A response with a location header at the start of a line. *)
Definition located (pre h i p rest : jsstring) : jsstring :=
  pre ++ h ++ (js "yeelight://" ++ i ++ 58 :: p) ++ rest.

Lemma location_parts_located (pre h i p rest : jsstring) :
  map canonicalize h = map canonicalize (js "Location: ") ->
  plain i -> plain p -> line_ends rest ->
  whole_lines pre -> match_group (js "Location: ") pre = None ->
  location_parts (located pre h i p rest) = Some (i, Some p).
Proof.
  intros Hh Hi Hp Hend Hpre Hnone. unfold location_parts, located.
  rewrite (header_value (js "Location: ") h
             (js "yeelight://" ++ i ++ 58 :: p) pre rest); auto.
  - change (remove_first (js "yeelight://") (js "yeelight://" ++ i ++ 58 :: p))
      with (i ++ 58 :: p).
    now rewrite (split_two 58 i p (plain_no_colon i Hi) (plain_no_colon p Hp)).
  - repeat constructor; vm_compute; discriminate.
  - discriminate.
  - unfold one_line. apply Forall_app. split.
    + repeat constructor; vm_compute; discriminate.
    + apply Forall_app. split; [now apply plain_one_line|].
      constructor; [split; vm_compute; discriminate | now apply plain_one_line].
Qed.

(** X19.  From a response that holds, at the start of a line and in
    any mixture of case, the header [Location: yeelight://ip:port]
    with no earlier match, [parseResponse] takes exactly that ip and
    that port: when the result set has no record for the ip it gains
    one record, under that ip, with the port parsed from that text;
    when it has one it is left as it is. *)
Theorem parseResponse_located (pre h i p rest : jsstring) (devices : DeviceMap) :
  map canonicalize h = map canonicalize (js "Location: ") ->
  plain i -> plain p -> line_ends rest ->
  whole_lines pre -> match_group (js "Location: ") pre = None ->
  let response := located pre h i p rest in
  parseResponse response devices =
    if devices_has i devices then devices
    else devices_set i (device_of response i (Some p)) devices.
Proof.
  intros Hh Hi Hp Hend Hpre Hnone. cbv zeta. unfold parseResponse.
  rewrite (location_parts_located pre h i p rest Hh Hi Hp Hend Hpre Hnone).
  now destruct (devices_has i devices).
Qed.

(** The head of a response, a location header in capitals, and the
    lines after it. *)
Definition head_lines : jsstring :=
  js "HTTP/1.1 200 OK" ++ [CR; LF]
  ++ js "Cache-Control: max-age=3600" ++ [CR].
Definition tail_lines : jsstring :=
  [CR; LF] ++ js "id: 0x000000000015243f" ++ [CR; LF]
  ++ js "model: color" ++ [CR; LF].

Ltac each_unit :=
  vm_compute;
  repeat (apply Forall_cons; [repeat split; discriminate|]);
  apply Forall_nil.

Lemma extractValue_header_witness :
  extractValue
    ((head_lines ++ [LF]) ++ js "LOCATION: "
       ++ js "yeelight://192.168.1.239:55443" ++ tail_lines)
    (js "Location") =
  Some (js "yeelight://192.168.1.239:55443").
Proof.
  apply (extractValue_header "Location" (js "LOCATION: ")
           (js "yeelight://192.168.1.239:55443") (head_lines ++ [LF])
           tail_lines).
  - each_unit.
  - reflexivity.
  - discriminate.
  - each_unit.
  - right. eexists. left. reflexivity.
  - right. eexists. reflexivity.
  - vm_compute. reflexivity.
Defined.

Lemma parseResponse_located_witness :
  let response :=
    located (head_lines ++ [LF]) (js "LOCATION: ")
      (js "192.168.1.239") (js "55443") tail_lines in
  parseResponse response [] =
    if devices_has (js "192.168.1.239") [] then []
    else devices_set (js "192.168.1.239")
           (device_of response (js "192.168.1.239") (Some (js "55443"))) [].
Proof.
  apply (parseResponse_located (head_lines ++ [LF]) (js "LOCATION: ")
           (js "192.168.1.239") (js "55443") tail_lines []).
  - reflexivity.
  - each_unit.
  - each_unit.
  - right. eexists. left. reflexivity.
  - right. eexists. reflexivity.
  - vm_compute. reflexivity.
Defined.

(** *** The result of a scan *)

Lemma keyed_ips (m : DeviceMap) :
  keyed_by_ip m -> map ip (devices_values m) = map fst m.
Proof.
  intros [Hk _]. unfold devices_values. rewrite map_map.
  apply map_ext_in. intros kd Hin.
  rewrite Forall_forall in Hk. symmetry. now apply Hk.
Qed.

(** X20.  Whatever the cache file holds and whatever datagrams
    arrive, on however many sockets and however often, the list that
    [discover] returns has at most one record for each ip. *)
Theorem discover_one_record_per_ip
  (useCache : bool) (f : store) (msgs : list Buffer) :
  NoDup (map ip (discover useCache f msgs)).
Proof.
  unfold discover.
  pose proof (discovered_keyed useCache f msgs) as Hk.
  rewrite (keyed_ips _ Hk). exact (proj2 Hk).
Qed.

Lemma onMessage_noise (msg : Buffer) (m : DeviceMap) :
  live_record msg = None -> onMessage msg m = m.
Proof.
  unfold live_record, onMessage, parseResponse. cbv zeta.
  destruct (includes _ _); [|reflexivity].
  destruct (location_parts _) as [[i p]|]; [discriminate | reflexivity].
Qed.

Lemma receive_app (a b : list Buffer) : forall m,
  receive (a ++ b) m = receive b (receive a m).
Proof.
  induction a as [|x a IH]; intros m; cbn [app receive]; auto.
Qed.

(** X21.  A datagram that lacks the device marker, or has it but
    holds no location header, has no influence on the scan: the
    result is the one of the scan without that datagram. *)
Theorem discover_ignores_noise
  (useCache : bool) (f : store) (before after : list Buffer) (msg : Buffer) :
  live_record msg = None ->
  discover useCache f (before ++ msg :: after) =
  discover useCache f (before ++ after).
Proof.
  intros Hn. unfold discover, discovered.
  rewrite !receive_app. cbn [receive]. now rewrite (onMessage_noise _ _ Hn).
Qed.

(** The probe of another scanner, which the multicast group also
    delivers: it has no device marker. *)
Definition foreign_probe : Buffer :=
  js "M-SEARCH * HTTP/1.1" ++ [CR; LF] ++ js "ST: wifi_bulb" ++ [CR; LF].

Lemma discover_ignores_noise_witness :
  discover true (Stored [cached_bulb]) ([bulb_response] ++ foreign_probe :: []) =
  discover true (Stored [cached_bulb]) ([bulb_response] ++ []).
Proof.
  apply (discover_ignores_noise true (Stored [cached_bulb])
           [bulb_response] [] foreign_probe).
  vm_compute. reflexivity.
Defined.

Lemma first_live_source (k : jsstring) (msgs : list Buffer) (d : DeviceInfo) :
  first_live k msgs = Some d ->
  exists msg, In msg msgs /\ live_record msg = Some d.
Proof.
  induction msgs as [|msg msgs IH]; cbn [first_live]; [discriminate|].
  destruct (live_record msg) as [d'|] eqn:E.
  - destruct (streqb k (ip d')).
    + intros [= ->]. exists msg. split; [now left | exact E].
    + intros H. destruct (IH H) as (m & Hin & Hm). exists m. split; auto.
      now right.
  - intros H. destruct (IH H) as (m & Hin & Hm). exists m. split; auto.
    now right.
Qed.

Lemma last_cached_source (k : jsstring) (cached : list DeviceInfo) (d : DeviceInfo) :
  last_cached k cached = Some d -> In d cached.
Proof.
  unfold last_cached. intros H. apply find_some in H.
  apply in_rev. exact (proj1 H).
Qed.

(** X22.  [discover] invents no record: every record it returns is
    a record of the cache file (only when the cache is used) or the
    record built from one of the datagrams of this scan. *)
Theorem discover_sources
  (useCache : bool) (f : store) (msgs : list Buffer) (d : DeviceInfo) :
  In d (discover useCache f msgs) ->
  (useCache = true /\ In d (loadCache f)) \/
  (exists msg, In msg msgs /\ live_record msg = Some d).
Proof.
  unfold discover. rewrite (values_keyed d _ (discovered_keyed useCache f msgs)).
  unfold discovered. rewrite receive_get.
  destruct useCache.
  - rewrite seed_get.
    destruct (last_cached (ip d) (loadCache f)) as [c|] eqn:E; cbn [or_else].
    + intros [= ->]. left. split; [reflexivity|].
      now apply (last_cached_source (ip d)).
    + cbn [devices_get assoc or_else]. intros H. right.
      now apply (first_live_source (ip d)).
  - cbn [devices_get assoc or_else]. intros H. right.
    now apply (first_live_source (ip d)).
Qed.

Lemma discover_sources_witness :
  (true = true /\ In cached_bulb (loadCache (Stored [cached_bulb]))) \/
  (exists msg, In msg [bulb_response] /\ live_record msg = Some cached_bulb).
Proof.
  apply (discover_sources true (Stored [cached_bulb]) [bulb_response]
           cached_bulb).
  vm_compute. left. reflexivity.
Defined.

End DiscoveryMore.

(** ** Properties of the cache file operations *)

Module CacheProps.
Import JS Discovery Cache DiscoveryProps.

(** The port of the record is a number, which the file keeps. *)
Definition storable (d : DeviceInfo) : Prop := port d <> None.

(** The test of [addDeviceManually] and, negated, of [removeDevice]. *)
Definition same_ip (d x : DeviceInfo) : bool := streqb (ip x) (ip d).

(** The list that [addDeviceManually] writes. *)
Definition upsert (d : DeviceInfo) (devices : list DeviceInfo) : list DeviceInfo :=
  let existingIndex := findIndex (same_ip d) devices in
  if existingIndex >=? 0 then assign devices existingIndex d
  else devices ++ [d].

Lemma findIndex_lower {A} (p : A -> bool) (a : list A) : -1 <= findIndex p a.
Proof.
  induction a as [|x a IH]; cbn [findIndex]; [lia|].
  destruct (p x); [lia|].
  destruct (findIndex p a <? 0) eqn:E; [lia|]. apply Z.ltb_ge in E. lia.
Qed.

Lemma upsert_cons (d x : DeviceInfo) (l : list DeviceInfo) :
  upsert d (x :: l) = if same_ip d x then d :: l else x :: upsert d l.
Proof.
  unfold upsert. cbv zeta. cbn [findIndex].
  destruct (same_ip d x); [reflexivity|].
  pose proof (findIndex_lower (same_ip d) l) as Hl.
  destruct (findIndex (same_ip d) l <? 0) eqn:E.
  - apply Z.ltb_lt in E.
    replace (findIndex (same_ip d) l >=? 0) with false
      by (symmetry; rewrite Z.geb_leb; apply Z.leb_gt; lia).
    reflexivity.
  - apply Z.ltb_ge in E.
    replace (findIndex (same_ip d) l >=? 0) with true
      by (symmetry; rewrite Z.geb_leb; apply Z.leb_le; lia).
    replace (findIndex (same_ip d) l + 1 >=? 0) with true
      by (symmetry; rewrite Z.geb_leb; apply Z.leb_le; lia).
    unfold assign.
    replace (Z.to_nat (findIndex (same_ip d) l + 1))
      with (S (Z.to_nat (findIndex (same_ip d) l))) by lia.
    reflexivity.
Qed.

Lemma upsert_nil (d : DeviceInfo) : upsert d [] = [d].
Proof. reflexivity. Qed.

Lemma same_ip_refl (d : DeviceInfo) : same_ip d d = true.
Proof. apply streqb_refl. Qed.

Lemma same_ip_eq (d x : DeviceInfo) : same_ip d x = true <-> ip x = ip d.
Proof. apply streqb_eq. Qed.

Lemma upsert_find (d : DeviceInfo) (l : list DeviceInfo) :
  find (same_ip d) (upsert d l) = Some d.
Proof.
  induction l as [|x l IH]; [cbn; now rewrite same_ip_refl|].
  rewrite upsert_cons. destruct (same_ip d x) eqn:E; cbn [find].
  - now rewrite same_ip_refl.
  - now rewrite E.
Qed.

Lemma upsert_others (d : DeviceInfo) (l : list DeviceInfo) :
  filter (fun x => negb (same_ip d x)) (upsert d l) =
  filter (fun x => negb (same_ip d x)) l.
Proof.
  induction l as [|x l IH]; [cbn; now rewrite same_ip_refl|].
  rewrite upsert_cons. destruct (same_ip d x) eqn:E; cbn [filter].
  - now rewrite same_ip_refl, E.
  - now rewrite E, IH.
Qed.

Lemma upsert_length (d : DeviceInfo) (l : list DeviceInfo) :
  List.length (upsert d l) =
  if existsb (same_ip d) l then List.length l else S (List.length l).
Proof.
  induction l as [|x l IH]; [reflexivity|].
  rewrite upsert_cons. cbn [existsb]. destruct (same_ip d x); [reflexivity|].
  cbn [List.length orb]. rewrite IH. now destruct (existsb (same_ip d) l).
Qed.

Lemma upsert_In (d : DeviceInfo) (l : list DeviceInfo) : In d (upsert d l).
Proof.
  induction l as [|x l IH]; [now left|].
  rewrite upsert_cons. destruct (same_ip d x); [now left | now right].
Qed.

Lemma upsert_ips (d : DeviceInfo) (l : list DeviceInfo) :
  map ip (upsert d l) =
  if existsb (same_ip d) l then map ip l else map ip l ++ [ip d].
Proof.
  induction l as [|x l IH]; [reflexivity|].
  rewrite upsert_cons. cbn [existsb]. destruct (same_ip d x) eqn:E.
  - apply same_ip_eq in E. cbn [map orb]. now rewrite E.
  - cbn [map orb]. rewrite IH. now destruct (existsb (same_ip d) l).
Qed.

Lemma existsb_same_ip (d : DeviceInfo) (l : list DeviceInfo) :
  existsb (same_ip d) l = false -> ~ In (ip d) (map ip l).
Proof.
  intros H Hin. apply in_map_iff in Hin. destruct Hin as (x & Hx & Hin).
  assert (E : existsb (same_ip d) l = true).
  { apply existsb_exists. exists x. split; [exact Hin|]. now apply same_ip_eq. }
  congruence.
Qed.

Lemma upsert_NoDup (d : DeviceInfo) (l : list DeviceInfo) :
  NoDup (map ip l) -> NoDup (map ip (upsert d l)).
Proof.
  intros H. rewrite upsert_ips.
  destruct (existsb (same_ip d) l) eqn:E; [exact H|].
  apply NoDup_app; [exact H | repeat constructor; simpl; tauto |].
  intros a Ha [<- | []]. now apply (existsb_same_ip d l E).
Qed.

Lemma filter_NoDup (ip0 : jsstring) (l : list DeviceInfo) :
  NoDup (map ip l) ->
  NoDup (map ip (filter (fun d => negb (streqb (ip d) ip0)) l)).
Proof.
  induction l as [|x l IH]; cbn [map filter]; [auto|].
  rewrite NoDup_cons_iff. intros [Hn Hd].
  destruct (negb (streqb (ip x) ip0)); [|auto].
  cbn [map]. rewrite NoDup_cons_iff. split; [|auto].
  intros Hin. apply Hn. apply in_map_iff in Hin.
  destruct Hin as (z & Hz & Hin). apply filter_In in Hin.
  apply in_map_iff. exists z. tauto.
Qed.

Lemma NoDup_ip_unique (l : list DeviceInfo) (x d : DeviceInfo) :
  NoDup (map ip l) -> In x l -> In d l -> ip x = ip d -> x = d.
Proof.
  induction l as [|a l IH]; cbn [map In]; [tauto|].
  rewrite NoDup_cons_iff. intros [Hn Hd] [<- | Hx] [<- | Hdd] E; auto.
  - exfalso. apply Hn. rewrite E. now apply in_map.
  - exfalso. apply Hn. rewrite <- E. now apply in_map.
Qed.

(** X23.  After [addDeviceManually] has written the file, the known
    devices hold the given record as their first record of that ip,
    every record of another ip is kept, in its order, and the list
    has grown by one exactly when the ip was new (for records whose
    port is a number, which the file keeps as it is). *)
Theorem addDeviceManually_upserts (d : DeviceInfo) (f : store) :
  Forall storable (d :: getKnownDevices f) ->
  let before := getKnownDevices f in
  let after := getKnownDevices (addDeviceManually Written d f) in
  find (same_ip d) after = Some d /\
  filter (fun x => negb (same_ip d x)) after =
    filter (fun x => negb (same_ip d x)) before /\
  List.length after =
    if existsb (same_ip d) before
    then List.length before else S (List.length before).
Proof.
  intros _. cbv zeta.
  change (getKnownDevices (addDeviceManually Written d f))
    with (upsert d (loadCache f)).
  unfold getKnownDevices.
  split; [apply upsert_find|]. split; [apply upsert_others | apply upsert_length].
Qed.

(** A bulb added by hand, on another address. *)
Definition manual_bulb : DeviceInfo :=
  {| ip := js "192.168.1.77"; port := Some 55443;
     dev_id := None; model := None; name := Some (js "hall");
     firmware := None; support := None; power := None |}.

Ltac storable_records :=
  repeat (apply Forall_cons; [vm_compute; discriminate|]); apply Forall_nil.

Lemma addDeviceManually_upserts_witness :
  let before := getKnownDevices (Stored [cached_bulb]) in
  let after :=
    getKnownDevices (addDeviceManually Written manual_bulb (Stored [cached_bulb])) in
  find (same_ip manual_bulb) after = Some manual_bulb /\
  filter (fun x => negb (same_ip manual_bulb x)) after =
    filter (fun x => negb (same_ip manual_bulb x)) before /\
  List.length after =
    if existsb (same_ip manual_bulb) before
    then List.length before else S (List.length before).
Proof.
  apply (addDeviceManually_upserts manual_bulb (Stored [cached_bulb])).
  storable_records.
Defined.

(** X24.  The two operations compose as an upsert and a delete by
    ip: adding a record twice is adding it once; removing an ip after
    adding a record of that ip is removing it from the file as it
    was; and when the ip was not in the file, removing it after the
    addition gives back the known devices as they were (for records
    whose port is a number, and writes that succeed). *)
Theorem add_then_remove (d : DeviceInfo) (f : store) :
  Forall storable (d :: getKnownDevices f) ->
  addDeviceManually Written d (addDeviceManually Written d f) =
    addDeviceManually Written d f /\
  removeDevice Written (ip d) (addDeviceManually Written d f) =
    removeDevice Written (ip d) f /\
  (existsb (same_ip d) (getKnownDevices f) = false ->
   getKnownDevices (removeDevice Written (ip d) (addDeviceManually Written d f)) =
     getKnownDevices f).
Proof.
  intros _.
  change (addDeviceManually Written d (addDeviceManually Written d f))
    with (Stored (upsert d (upsert d (loadCache f)))).
  change (addDeviceManually Written d f) with (Stored (upsert d (loadCache f))).
  change (removeDevice Written (ip d) (Stored (upsert d (loadCache f))))
    with (Stored (filter (fun x => negb (same_ip d x))
                    (upsert d (loadCache f)))).
  change (removeDevice Written (ip d) f)
    with (Stored (filter (fun x => negb (same_ip d x)) (loadCache f))).
  unfold getKnownDevices. cbn [loadCache].
  rewrite upsert_others.
  split; [|split; [reflexivity|]].
  - f_equal. induction (loadCache f) as [|x l IH]; cbn.
    + rewrite upsert_cons. now rewrite same_ip_refl.
    + rewrite !upsert_cons. destruct (same_ip d x) eqn:E.
      * rewrite upsert_cons. now rewrite same_ip_refl.
      * rewrite upsert_cons, E. now rewrite IH.
  - intros Hnew. induction (loadCache f) as [|x l IH]; [reflexivity|].
    cbn [existsb filter] in *. apply orb_false_iff in Hnew.
    destruct Hnew as [Hx Hl]. rewrite Hx. cbn [negb]. now rewrite IH.
Qed.

Lemma add_then_remove_witness :
  addDeviceManually Written manual_bulb
    (addDeviceManually Written manual_bulb (Stored [cached_bulb])) =
    addDeviceManually Written manual_bulb (Stored [cached_bulb]) /\
  removeDevice Written (ip manual_bulb)
    (addDeviceManually Written manual_bulb (Stored [cached_bulb])) =
    removeDevice Written (ip manual_bulb) (Stored [cached_bulb]) /\
  (existsb (same_ip manual_bulb) (getKnownDevices (Stored [cached_bulb])) = false ->
   getKnownDevices
     (removeDevice Written (ip manual_bulb)
        (addDeviceManually Written manual_bulb (Stored [cached_bulb]))) =
     getKnownDevices (Stored [cached_bulb])).
Proof.
  apply (add_then_remove manual_bulb (Stored [cached_bulb])).
  storable_records.
Defined.

(** X25.  A file with one record per ip keeps one record per ip
    through both operations, and after [removeDevice] no record of
    the removed ip is left. *)
Theorem cache_one_record_per_ip (d : DeviceInfo) (ip0 : jsstring) (f : store) :
  NoDup (map ip (getKnownDevices f)) ->
  NoDup (map ip (getKnownDevices (addDeviceManually Written d f))) /\
  NoDup (map ip (getKnownDevices (removeDevice Written ip0 f))) /\
  ~ In ip0 (map ip (getKnownDevices (removeDevice Written ip0 f))).
Proof.
  intros H.
  change (getKnownDevices (addDeviceManually Written d f))
    with (upsert d (loadCache f)).
  change (getKnownDevices (removeDevice Written ip0 f))
    with (filter (fun x => negb (streqb (ip x) ip0)) (loadCache f)).
  unfold getKnownDevices in H.
  split; [now apply upsert_NoDup|]. split; [now apply filter_NoDup|].
  intros Hin. apply in_map_iff in Hin. destruct Hin as (x & Hx & Hin).
  apply filter_In in Hin. destruct Hin as [_ Hf].
  rewrite <- Hx, streqb_refl in Hf. discriminate Hf.
Qed.

Lemma cache_one_record_per_ip_witness :
  NoDup (map ip (getKnownDevices
                   (addDeviceManually Written manual_bulb (Stored [cached_bulb])))) /\
  NoDup (map ip (getKnownDevices
                   (removeDevice Written (ip cached_bulb) (Stored [cached_bulb])))) /\
  ~ In (ip cached_bulb)
      (map ip (getKnownDevices
                 (removeDevice Written (ip cached_bulb) (Stored [cached_bulb])))).
Proof.
  apply (cache_one_record_per_ip manual_bulb (ip cached_bulb)
           (Stored [cached_bulb])).
  vm_compute. repeat constructor. intros [].
Defined.

Lemma last_cached_unique (d : DeviceInfo) (l : list DeviceInfo) :
  NoDup (map ip l) -> In d l -> last_cached (ip d) l = Some d.
Proof.
  intros Hn Hin. unfold last_cached.
  destruct (find (fun x => streqb (ip d) (ip x)) (rev l)) as [x|] eqn:E.
  - apply find_some in E. destruct E as [Hx Hs].
    apply in_rev in Hx. apply streqb_eq in Hs.
    f_equal. apply (NoDup_ip_unique l x d Hn Hx Hin). congruence.
  - exfalso. apply in_rev in Hin.
    pose proof (find_none _ _ E d Hin) as H. cbv beta in H.
    rewrite streqb_refl in H. discriminate H.
Qed.

(** X26.  A device added by hand to a file with one record per ip
    is returned by every later scan that uses the cache, as the
    record of its ip, whether the device answers the probe or not
    and whatever it answers (for records whose port is a number, and
    a write that succeeds). *)
Theorem manual_device_discovered (d : DeviceInfo) (f : store) (msgs : list Buffer) :
  Forall storable (d :: getKnownDevices f) ->
  NoDup (map ip (getKnownDevices f)) ->
  let f' := addDeviceManually Written d f in
  devices_get (ip d) (discovered true f' msgs) = Some d /\
  In d (discover true f' msgs).
Proof.
  intros _ Hn. cbv zeta.
  assert (Hg : devices_get (ip d)
                 (discovered true (addDeviceManually Written d f) msgs) = Some d).
  { unfold discovered. rewrite receive_get, seed_get.
    change (loadCache (addDeviceManually Written d f))
      with (upsert d (loadCache f)).
    rewrite (last_cached_unique d (upsert d (loadCache f))).
    - reflexivity.
    - now apply upsert_NoDup.
    - apply upsert_In. }
  split; [exact Hg|]. unfold discover.
  now apply (values_keyed d _ (discovered_keyed true _ msgs)).
Qed.

Lemma manual_device_discovered_witness :
  let f' := addDeviceManually Written live_bulb (Stored [cached_bulb]) in
  devices_get (ip live_bulb) (discovered true f' [bulb_response]) =
    Some live_bulb /\
  In live_bulb (discover true f' [bulb_response]).
Proof.
  apply (manual_device_discovered live_bulb (Stored [cached_bulb])
           [bulb_response]).
  - storable_records.
  - vm_compute. repeat constructor. intros [].
Defined.

End CacheProps.

(** ** Properties of the connection lifecycle *)

Module LifecycleProps.
Import JS Session Capabilities SessionProps.

Lemma invoke_disconnected (c : call) (y : Yeelight) :
  connected y = false -> exists e, invoke c y = (Thrown e, y, []).
Proof.
  intros Hc.
  assert (Hs : forall m ps, sendCommand m ps y = (Thrown NotConnected, y, [])).
  { intros m ps. unfold sendCommand. now rewrite Hc. }
  destruct c; cbn [invoke];
    unfold turnOn, turnOff, setPower, setBrightness, setRGB,
      setColorTemperature, setHSV;
    repeat match goal with
           | |- context [if ?b then _ else _] => destruct b
           end;
    rewrite ?Hs; eexists; reflexivity.
Qed.

(** A step that takes the connection down. *)
Definition teardown (o : op) : Prop :=
  o = Disconnect \/ o = SocketError \/ o = SocketClose.

(** X27.  After [disconnect()], a transport error or a transport
    close, every capability call throws and writes nothing, leaving
    the object as it is.  Of the three only the close rejects the
    pending commands: [disconnect()] and the error handler leave the
    pending table and the timeouts as they are and settle nothing,
    so those commands stay pending until the close event or their
    deadlines. *)
Theorem teardown_blocks_calls
  (JSON_parse : jsstring -> option json) (o : op) (y : Yeelight) (c : call) :
  teardown o ->
  let y' := step_state JSON_parse o y in
  (exists e, invoke c y' = (Thrown e, y', [])) /\
  (o <> SocketClose ->
   commandQueue y' = commandQueue y /\ timers y' = timers y /\
   rejections (step_effects JSON_parse o y) = [] /\
   resolutions (step_effects JSON_parse o y) = []).
Proof.
  intros [-> | [-> | ->]]; cbv zeta; unfold step_state, step_effects;
    cbn [step no_outcome fst snd].
  - split.
    + apply invoke_disconnected. unfold disconnect.
      destruct (socket y); reflexivity.
    + intros _. unfold disconnect.
      destruct (socket y); destruct y; repeat split.
  - split.
    + apply invoke_disconnected. reflexivity.
    + intros _. destruct y; repeat split.
  - split.
    + apply invoke_disconnected. rewrite handleClose_spec. reflexivity.
    + intros H. now elim H.
Qed.

Lemma teardown_blocks_calls_witness :
  let y' := step_state JsonLite.parse Disconnect two_pending in
  (exists e, invoke (TurnOff 500) y' = (Thrown e, y', [])) /\
  (Disconnect <> SocketClose ->
   commandQueue y' = commandQueue two_pending /\
   timers y' = timers two_pending /\
   rejections (step_effects JsonLite.parse Disconnect two_pending) = [] /\
   resolutions (step_effects JsonLite.parse Disconnect two_pending) = []).
Proof.
  apply (teardown_blocks_calls JsonLite.parse Disconnect two_pending
           (TurnOff 500)).
  left. reflexivity.
Defined.

End LifecycleProps.

(** ** The range checks on arguments that may be [NaN] *)

Module Numeric.
Import JS Session Capabilities.

(** A [number] argument: an integer, or [NaN]. *)
Inductive number :=
| Int (z : Z)
| NaN.

(** [a < b] and [a > b]: every comparison with [NaN] is false. *)
Definition lt (a : number) (b : Z) : bool :=
  match a with
  | Int z => z <? b
  | NaN => false
  end.

Definition gt (a : number) (b : Z) : bool :=
  match a with
  | Int z => z >? b
  | NaN => false
  end.

(** The argument as an element of [params]; [NaN] stays the number
    it is in the command object (and [JSON.stringify] writes it as
    [null]). *)
Definition value (a : number) : json :=
  match a with
  | Int z => JNum z
  | NaN => JFrac (js "NaN")
  end.

Definition setBrightness (brightness : number) (duration : Z) (y : Yeelight)
  : result :=
  if lt brightness 1 || gt brightness 100
  then (Thrown BrightnessValidationError, y, [])
  else sendCommand (js "set_bright")
         [value brightness; JStr (js "smooth"); JNum duration] y.

Definition setColorTemperature (temperature : number) (duration : Z)
  (y : Yeelight) : result :=
  if lt temperature 1700 || gt temperature 6500
  then (Thrown TemperatureValidationError, y, [])
  else sendCommand (js "set_ct_abx")
         [value temperature; JStr (js "smooth"); JNum duration] y.

Definition setHSV (hue saturation : number) (duration : Z) (y : Yeelight)
  : result :=
  if lt hue 0 || gt hue 359
  then (Thrown HueValidationError, y, [])
  else if lt saturation 0 || gt saturation 100
  then (Thrown SaturationValidationError, y, [])
  else sendCommand (js "set_hsv")
         [value hue; value saturation; JStr (js "smooth"); JNum duration] y.

(** A call of one of the three methods that check a range. *)
Inductive checked_call :=
| Brightness (brightness : number) (duration : Z)
| Temperature (temperature : number) (duration : Z)
| HueSaturation (hue saturation : number) (duration : Z).

Definition invoke_checked (c : checked_call) (y : Yeelight) : result :=
  match c with
  | Brightness b d => setBrightness b d y
  | Temperature t d => setColorTemperature t d y
  | HueSaturation h s d => setHSV h s d y
  end.

End Numeric.

Module NumericProps.
Import JS Session Capabilities SessionProps ApiProps Numeric.

(** On integers the methods are the ones modelled above. *)
Lemma integer_arguments (c : checked_call) (y : Yeelight) :
  match c with
  | Brightness (Int b) d =>
      invoke_checked c y = Session.setBrightness b d y
  | Temperature (Int t) d =>
      invoke_checked c y = Capabilities.setColorTemperature t d y
  | HueSaturation (Int h) (Int s) d =>
      invoke_checked c y = Capabilities.setHSV h s d y
  | _ => True
  end.
Proof. destruct c as [[b|] d | [t|] d | [h|] [s|] d]; reflexivity || exact I. Qed.

(** The arguments that the check lets through: an integer of the
    documented range, or [NaN]. *)
Definition admitted (lo hi : Z) (a : number) : bool :=
  match a with
  | Int z => (lo <=? z) && (z <=? hi)
  | NaN => true
  end.

Definition passes (c : checked_call) : bool :=
  match c with
  | Brightness b _ => admitted 1 100 b
  | Temperature t _ => admitted 1700 6500 t
  | HueSaturation h s _ => admitted 0 359 h && admitted 0 100 s
  end.

Lemma admitted_guard (lo hi : Z) (a : number) :
  lt a lo || gt a hi = negb (admitted lo hi a).
Proof.
  destruct a as [z|]; [|reflexivity]. cbn [lt gt admitted].
  destruct ((lo <=? z) && (z <=? hi)) eqn:E.
  - now rewrite (guard_false _ _ _ E).
  - now rewrite (guard_true _ _ _ E).
Qed.

(** X2.  The range checks come before the connection check.  An
    integer argument outside its documented range (brightness
    1..100, temperature 1700..6500, hue 0..359, saturation 0..100)
    throws a validation error in every state, connected or not, and
    leaves the object as it is.  Arguments that pass throw the
    not-connected error on a session that is not connected and, on a
    connected one, write exactly one command, which carries the next
    id.  [NaN] passes every check, because both comparisons of a
    guard are false for it: a [NaN] brightness on a connected
    session is written. *)
Theorem invoke_validates_first (c : checked_call) (y : Yeelight) :
  (passes c = false ->
     exists e, invoke_checked c y = (Thrown e, y, []) /\
               is_validation_error e) /\
  (passes c = true -> connected y = false \/ socket y = None ->
     invoke_checked c y = (Thrown NotConnected, y, [])) /\
  (passes c = true -> is_connected y ->
     exists cmd y',
       invoke_checked c y = (Pending (incr (messageId y)), y', [Write cmd]) /\
       cmd_id cmd = incr (messageId y)) /\
  (forall duration, is_connected y ->
     exists y',
       let cmd := {| cmd_id := incr (messageId y); method := js "set_bright";
                     params := [JFrac (js "NaN"); JStr (js "smooth");
                                JNum duration] |} in
       setBrightness NaN duration y = (Pending (cmd_id cmd), y', [Write cmd])).
Proof.
  assert (Hdown : forall m ps, connected y = false \/ socket y = None ->
            sendCommand m ps y = (Thrown NotConnected, y, [])).
  { intros m ps H. unfold sendCommand.
    destruct H as [H | H]; rewrite H; [reflexivity|].
    now rewrite orb_true_r. }
  assert (Hup : forall m ps, is_connected y ->
            exists cmd y',
              sendCommand m ps y =
                (Pending (incr (messageId y)), y', [Write cmd]) /\
              cmd_id cmd = incr (messageId y)).
  { intros m ps H. rewrite (sendCommand_connected _ _ _ H). cbv zeta.
    eexists. eexists. split; reflexivity. }
  unfold is_validation_error.
  split; [|split; [|split]].
  - destruct c; cbn [invoke_checked passes];
      unfold setBrightness, setColorTemperature, setHSV;
      rewrite ?admitted_guard; intros Hp.
    + rewrite Hp. eexists. split; [reflexivity|]. auto.
    + rewrite Hp. eexists. split; [reflexivity|]. auto.
    + apply andb_false_iff in Hp. destruct Hp as [Hp | Hp].
      * rewrite Hp. eexists. split; [reflexivity|]. auto.
      * rewrite Hp. destruct (negb (admitted 0 359 hue)).
        -- eexists. split; [reflexivity|]. auto.
        -- eexists. split; [reflexivity|]. auto 6.
  - destruct c; cbn [invoke_checked passes];
      unfold setBrightness, setColorTemperature, setHSV;
      rewrite ?admitted_guard; intros Hp Hd.
    + rewrite Hp. now apply Hdown.
    + rewrite Hp. now apply Hdown.
    + apply andb_true_iff in Hp. destruct Hp as [Hh Hs].
      rewrite Hh, Hs. now apply Hdown.
  - destruct c; cbn [invoke_checked passes];
      unfold setBrightness, setColorTemperature, setHSV;
      rewrite ?admitted_guard; intros Hp Hc.
    + rewrite Hp. now apply Hup.
    + rewrite Hp. now apply Hup.
    + apply andb_true_iff in Hp. destruct Hp as [Hh Hs].
      rewrite Hh, Hs. now apply Hup.
  - intros duration Hc. unfold setBrightness. cbn [lt gt orb value].
    rewrite (sendCommand_connected _ _ _ Hc). cbv zeta.
    eexists. reflexivity.
Qed.

Lemma invoke_validates_first_witness :
  (exists e, invoke_checked (HueSaturation (Int 360) NaN 500) new_Yeelight =
               (Thrown e, new_Yeelight, []) /\ is_validation_error e) /\
  invoke_checked (Temperature (Int 2700) 500) new_Yeelight =
    (Thrown NotConnected, new_Yeelight, []) /\
  (exists cmd y',
     invoke_checked (HueSaturation NaN (Int 100) 500) (connected_session 4) =
       (Pending (incr (messageId (connected_session 4))), y', [Write cmd]) /\
     cmd_id cmd = incr (messageId (connected_session 4))) /\
  (exists y',
     let cmd := {| cmd_id := incr (messageId (connected_session 4));
                   method := js "set_bright";
                   params := [JFrac (js "NaN"); JStr (js "smooth");
                              JNum 500] |} in
     setBrightness NaN 500 (connected_session 4) =
       (Pending (cmd_id cmd), y', [Write cmd])).
Proof.
  split; [|split; [|split]].
  - apply (proj1 (invoke_validates_first
                    (HueSaturation (Int 360) NaN 500) new_Yeelight)).
    reflexivity.
  - apply (proj1 (proj2 (invoke_validates_first
                           (Temperature (Int 2700) 500) new_Yeelight))).
    + reflexivity.
    + left. reflexivity.
  - apply (proj1 (proj2 (proj2 (invoke_validates_first
                           (HueSaturation NaN (Int 100) 500)
                           (connected_session 4))))).
    + reflexivity.
    + split; [reflexivity | discriminate].
  - apply (proj2 (proj2 (proj2 (invoke_validates_first
                           (Brightness NaN 500) (connected_session 4))))).
    split; [reflexivity | discriminate].
Defined.

End NumericProps.
